(** * node-web-modules: a shallow embedding of the request-dispatch core

    Files embedded (src/lib): Model.js, ModelAndView.js, ObjectDataBinder.js,
    RequestHandler.js (first revision), Module.js (first revision),
    ModuleManager.js, ExpressRequestHandler.js (validate, lookup,
    resolveViewFromRequest, handle), CommandController.js,
    MessageController.js; later revisions of Module.js and
    RequestHandler.js, ExpressMiddleware.js and WebSocketMiddleware.js. *)

From Stdlib Require Import Lia ZArith Ascii.
From stdpp Require Import base gmap list strings.

(** ** JavaScript values, as far as the embedded code inspects them *)

Inductive value :=
| VUndefined
| VNull
| VBool (b : bool)
| VNum (n : nat)
| VStr (s : string)
| VObj (addr : nat).

(** JavaScript truthiness, used by [x || y] and [if (x)]. *)
Definition truthy (v : value) : bool :=
  match v with
  | VUndefined | VNull => false
  | VBool b => b
  | VNum n => negb (Nat.eqb n 0)
  | VStr s => negb (String.eqb s "")
  | VObj _ => true
  end.

(** ** Model.js *)
Module Model.

  (** The private state of one [WebModules.Model] instance, together with
      the log of callback invocations (callbacks are identified by a
      number). *)
Record t := mk {
    callbacks : list nat;
    deferred : bool;
    invoked : list nat
  }.

  (** [new WebModules.Model()]: [callbacks = []], [deferred = false]. *)
Definition create : t := mk [] false [].

  (** [notify]: invokes [callbacks[0 .. length-1]] in order. *)
Definition notify (m : t) : t :=
    mk (callbacks m) (deferred m) (invoked m ++ callbacks m).

  (** [defer]: [deferred = true]. *)
Definition defer (m : t) : t :=
    mk (callbacks m) true (invoked m).

  (** [resume]: [if (deferred) notify();] *)
Definition resume (m : t) : t :=
    if deferred m then notify m else m.

  (** [wait]: [callbacks.push(callback); if (!deferred) notify();] *)
Definition wait (cb : nat) (m : t) : t :=
    let m1 := mk (callbacks m ++ [cb]) (deferred m) (invoked m) in
    if negb (deferred m1) then notify m1 else m1.

Inductive op := Defer | Resume | Wait (cb : nat).

Definition step (m : t) (o : op) : t :=
    match o with
    | Defer => defer m
    | Resume => resume m
    | Wait cb => wait cb m
    end.

  (** A sequence of method calls on one model. *)
Definition run (m : t) (ops : list op) : t := foldl step m ops.

Definition is_defer (o : op) : bool :=
    match o with Defer => true | _ => false end.

  (** The callbacks passed to [wait] by a sequence of calls, in order. *)
Definition waited (ops : list op) : list nat :=
    flat_map (fun o => match o with Wait cb => [cb] | _ => [] end) ops.

End Model.

(** ** ModelAndView.js *)
Module ModelAndView.

Record t := mk {
    viewName : value;
    model : value;
    redirect : value
  }.

  (** The Model objects allocated so far: entry [a] is the [theData]
      argument of the [new WebModules.Model(theData)] call that created the
      object at address [a]. *)
Definition heap := list value.

  (** [new WebModules.Model(theData)] *)
Definition new_Model (theData : value) (h : heap) : value * heap :=
    (VObj (length h), h ++ [theData]).

  (** [new WebModules.ModelAndView(theViewName, theModel)]:
      [model : theModel || new WebModules.Model()], [redirect = null]. *)
Definition create (theViewName theModel : value) (h : heap) : t * heap :=
    if truthy theModel
    then (mk theViewName theModel VNull, h)
    else let '(m, h') := new_Model VUndefined h in (mk theViewName m VNull, h').

  (** [sendRedirect(theRedirect)]: [redirect = theRedirect]. *)
Definition sendRedirect (theRedirect : value) (mav : t) : t :=
    mk (viewName mav) (model mav) theRedirect.

  (** [getRedirect()]: [return redirect]. *)
Definition getRedirect (mav : t) : value := redirect mav.

  (** Successive [sendRedirect] calls. *)
Definition send_all (rs : list value) (mav : t) : t :=
    foldl (fun m r => sendRedirect r m) mav rs.

End ModelAndView.

(** ** Objects and data binding (ObjectDataBinder.js) *)
Module Binder.

  (** The own enumerable properties of a plain object. *)
Abbreviation obj := (gmap string value).

  (** Modelled from the spec: [WebModules.extend(target, source)] lives in
      Utils.js, which is not part of the sources; the spec describes data
      binding as shallow object-property copying, so [extend] copies every
      own property of [source] onto [target], overwriting. *)
Definition extend (target source : obj) : obj := source ∪ target.

  (** The first loop of [bind]: [fields] merges the truthy arguments in
      order ([None] stands for a falsy argument). *)
Definition merge_params (args : list (option obj)) : obj :=
    foldl (fun fields a => match a with Some o => extend fields o | None => fields end)
      ∅ args.

  (** One iteration of [for (name in fields)]:
      [if (fields.hasOwnProperty(name) && host.hasOwnProperty(name))
         host[name] = fields[name];] *)
Definition bind_one (host : obj) (nv : string * value) : obj :=
    match host !! nv.1 with
    | Some _ => <[nv.1 := nv.2]> host
    | None => host
    end.

  (** [new ObjectDataBinder(host).bind(args...)]: returns the host object
      with the bound properties. *)
Definition bind (host : obj) (args : list (option obj)) : obj :=
    foldl bind_one host (map_to_list (merge_params args)).

  (** Modelled from the spec: [WebModules.bind(host, params)] lives in
      Utils.js, which is not part of the sources; it binds one parameter
      object onto the host as [ObjectDataBinder] does. *)
Definition bind_params (host : obj) (params : option obj) : obj :=
    bind host [params].

End Binder.

(** ** Filters and the request-dispatch chain
    (RequestHandler.js lines 1-193, Module.js lines 19-292,
    ExpressRequestHandler.js [handle]) *)
Module Dispatch.

  (** What a filter's [execute(req, res, filterChain)] does, in order:
      call [filterChain.next()], call [filterChain.stop()], throw an
      [Error], or throw the value [v] (which may be falsy: [throw null]). *)
Inductive chain_action := ANext | AStop | AThrow | AThrowValue (v : value).

Record filter := mkFilter {
    filter_id : nat;
    execute : list chain_action
  }.

  (** The exception thrown by a filter: an [Error] (identified by the
      filter that threw it) or any other thrown value. *)
Inductive exn := FilterError (id : nat) | Thrown (v : value).

  (** [if (error)] on a caught exception. *)
Definition exn_truthy (e : exn) : bool :=
    match e with
    | FilterError _ => true
    | Thrown v => truthy v
    end.

  (** The argument of the dispatch continuation: [undefined],
      [{ error: error }] or [{ cancel: true }]. *)
Inductive info := InfoNone | InfoError (e : exn) | InfoCancel.

  (** Observable events: a filter's [execute] entered, the request
      handler's [handle] entered for an endpoint, the continuation of
      [requestHandler.dispatch] called for an endpoint, the module's own
      [next()] called. *)
Inductive event :=
  | EExecute (id : nat)
  | EHandle (ep : nat)
  | ENext (ep : nat) (i : info)
  | EModuleNext.

  (** Mutable state: the [filterList] array of the running
      [processFilters] call, the [index] variable of [Module.dispatch],
      and the log of events. *)
Record st := mkSt {
    filterList : list filter;
    index : nat;
    trace : list event
  }.

Inductive result (A : Type) := Ok (a : A) | Exc (e : exn).
  Arguments Ok {A} a.
  Arguments Exc {A} e.

  (** State and exception monad. *)
Definition M (A : Type) : Type := st -> st * result A.

Global Instance M_ret : MRet M := fun A a s => (s, Ok a).
Global Instance M_bind : MBind M := fun A B k m s =>
    match m s with
    | (s', Ok a) => k a s'
    | (s', Exc e) => (s', Exc e)
    end.

Definition raise {A} (e : exn) : M A := fun s => (s, Exc e).

  (** [try { m } catch (cause) { h(cause) }] *)
Definition try_catch (m : M unit) (h : exn -> M unit) : M unit := fun s =>
    match m s with
    | (s', Ok a) => (s', Ok a)
    | (s', Exc e) => h e s'
    end.

Definition emit (ev : event) : M unit := fun s =>
    (mkSt (filterList s) (index s) (trace s ++ [ev]), Ok tt).

  (** [filterList.shift()] ([undefined] on an empty array). *)
Definition shift : M (option filter) := fun s =>
    match filterList s with
    | [] => (s, Ok None)
    | f :: rest => (mkSt rest (index s) (trace s), Ok (Some f))
    end.

  (** Runs [m] with its own [filterList] (the local variable of one
      [processFilters] call), leaving the caller's one untouched. *)
Definition with_filterList (l : list filter) (m : M unit) : M unit := fun s =>
    let '(s', r) := m (mkSt l (index s) (trace s)) in
    (mkSt (filterList s) (index s') (trace s'), r).

Definition get_index : M nat := fun s => (s, Ok (index s)).
Definition set_index (i : nat) : M unit := fun s =>
    (mkSt (filterList s) i (trace s), Ok tt).

  (** The module's [filters] array: one bucket per order index, [None]
      where the array has a hole. *)
Abbreviation buckets := (list (option (list filter))).

  (** [filters.forEach(function (filter) {
         filterList = filterList.concat(filter); });]
      ([forEach] skips holes). *)
Definition flatten (fs : buckets) : list filter :=
    foldl (fun acc b => match b with Some l => acc ++ l | None => acc end) [] fs.

  (** The body of [filter.execute(req, res, filterChain)]: [nxt] is
      [filterChain.next], [stop] is [filterChain.stop]. *)
Fixpoint run_actions (nxt stop : M unit) (id : nat)
      (acts : list chain_action) : M unit :=
    match acts with
    | [] => mret tt
    | ANext :: r => nxt ;; run_actions nxt stop id r
    | AStop :: r => stop ;; run_actions nxt stop id r
    | AThrow :: _ => raise (FilterError id)
    | AThrowValue v :: _ => raise (Thrown v)
    end.

  (** [processFilter]; [callback] is the argument of [processFilters].
      [fuel] bounds the nesting depth (each level shifts the shared list
      once, so [S (length filterList)] is enough). *)
Fixpoint processFilter (fuel : nat) (callback : bool -> option exn -> M unit)
      (f : option filter) : M unit :=
    match f with
    | None => callback false None
    | Some flt =>
        match fuel with
        | O => mret tt
        | S fuel' =>
            g ← shift;
            try_catch
              (emit (EExecute (filter_id flt)) ;;
               run_actions (processFilter fuel' callback g)
                 (callback true None) (filter_id flt) (execute flt))
              (fun cause => callback true (Some cause))
        end
    end.

  (** [processFilters(req, res, callback)] *)
Definition processFilters (filters : buckets)
      (callback : bool -> option exn -> M unit) : M unit :=
    let fl := flatten filters in
    with_filterList fl
      (f ← shift; processFilter (S (length fl)) callback f).

  (** The callback [function (cancel, error) { ... }] of [dispatch]. *)
Definition dispatch_callback (handle : (info -> M unit) -> M unit)
      (next : info -> M unit) (cancel : bool) (error : option exn) : M unit :=
    (match error with
     | Some e => if exn_truthy e then next (InfoError e) else mret tt
     | None => mret tt
     end) ;;
    if cancel then next InfoCancel
    else handle (fun i => next i).

  (** [RequestHandler.dispatch(endpoint, req, res, next)]; [valid] is
      [this.validate(endpoint, req)], [handle] is
      [this.handle.bind(this, endpoint, req, res)]. *)
Definition dispatch (filters : buckets) (valid : bool)
      (handle : (info -> M unit) -> M unit) (next : info -> M unit) : M unit :=
    if negb valid then next InfoNone
    else processFilters filters (dispatch_callback handle next).

Record endpoint := mkEndpoint {
    ep_id : nat;
    ep_valid : bool;      (* [validate(endpoint, req)] *)
    ep_canHandle : bool   (* [controller.canHandle(req, res)] *)
  }.

  (** [ExpressRequestHandler.handle]: returns [next()] when the controller
      cannot handle the request, otherwise renders (no continuation). *)
Definition express_handle (ep : endpoint) (next : info -> M unit) : M unit :=
    emit (EHandle (ep_id ep)) ;;
    if ep_canHandle ep then mret tt else next InfoNone.

  (** [processNextEndpoint] of [Module.dispatch]; [fuel] bounds the
      nesting (each level increments [index]). *)
Fixpoint processNextEndpoint (fuel : nat) (filters : buckets)
      (endpoints : list endpoint) (e : option endpoint) : M unit :=
    match e with
    | None => emit EModuleNext
    | Some ep =>
        match fuel with
        | O => mret tt
        | S fuel' =>
            dispatch filters (ep_valid ep) (express_handle ep)
              (fun i =>
                 emit (ENext (ep_id ep) i) ;;
                 match i with
                 | InfoError err => raise err
                 | InfoCancel => mret tt
                 | InfoNone =>
                     idx ← get_index;
                     set_index (S idx) ;;
                     processNextEndpoint fuel' filters endpoints
                       (endpoints !! S idx)
                 end)
        end
    end.

  (** [Module.dispatch(req, res, next)] *)
Definition module_dispatch (filters : buckets) (endpoints : list endpoint)
      : M unit :=
    set_index 0 ;;
    processNextEndpoint (S (length endpoints)) filters endpoints (endpoints !! 0).

  (** Runs [Module.dispatch] from an empty log. *)
Definition run_module (filters : buckets) (endpoints : list endpoint)
      : list event * result unit :=
    let '(s, r) := module_dispatch filters endpoints (mkSt [] 0 []) in
    (trace s, r).

  (** The exception a throwing action raises. *)
Definition raised (id : nat) (a : chain_action) : option exn :=
    match a with
    | AThrow => Some (FilterError id)
    | AThrowValue v => Some (Thrown v)
    | _ => None
    end.

  (** A computation that only appends to the log. *)
Definition grows {A} (m : M A) : Prop :=
    forall s, exists t, trace (m s).1 = trace s ++ t.

  (** A filter whose [execute] only calls [filterChain.next()]. *)
Definition is_next (f : filter) : Prop := execute f = [ANext].

End Dispatch.

(** ** CommandController.js and MessageController.js *)
Module Controller.
  Import Binder.

  (** [str.replace(pattern, replacement)] with a string pattern: only the
      first occurrence is replaced. *)
Fixpoint js_replace_first (s pat rep : string) : string :=
    if String.prefix pat s
    then String.append rep (String.substring (String.length pat)
                               (String.length s - String.length pat) s)
    else match s with
         | EmptyString => s
         | String c s' => String c (js_replace_first s' pat rep)
         end.

  (** [parseViewName(params)]; the view name is [undefined] ([None]) or a
      string. *)
Definition parseViewName (viewName : option string)
      (params : list (string * string)) : string :=
    foldl (fun acc kv => js_replace_first acc (String.append ":" kv.1) kv.2)
      (match viewName with Some v => v | None => "" end) params.

Record request := mkRequest {
    req_params : option obj;
    req_query : option obj;
    req_body : option obj;
    req_cookies : option obj
  }.

  (** The constructor [options]; [None] is [undefined]. *)
Record options := mkOptions {
    bindRouteParams : option bool;
    bindRequestParams : option bool;
    bindRequestBody : option bool;
    bindCookies : option bool
  }.

Definition default_options : options := mkOptions None None None None.

  (** [(options.x !== undefined) ? options.x : default] *)
Definition opt (o : option bool) (dflt : bool) : bool :=
    match o with Some b => b | None => dflt end.

  (** What [command.execute()] returns: a [WebModules.Model] (the object
      at that address), a [WebModules.Redirect], or anything else. *)
Inductive exec_result :=
  | RModel (addr : nat)
  | RRedirect (r : value)
  | ROther (v : value).

  (** Calls made on the command object. *)
Inductive cmd_event :=
  | ECreate
  | EBind (source : string)
  | EExecute (fields : obj).

  (** What a controller's [handle] returns. *)
Inductive handled :=
  | HMav (mav : ModelAndView.t)
  | HModel (model : value).

  Section Handle.
    (** [createCommand(request, ...)]: the own properties of the new
        command object. *)
Variable createCommand : request -> obj.
    (** [command.execute()] as a function of the command's properties. *)
Variable execute : obj -> exec_result.

    (** The [if (bindX) WebModules.bind(command, request.x)] steps. *)
Definition bind_step (cond : bool) (source : string) (params : option obj)
        (st : obj * list cmd_event) : obj * list cmd_event :=
      if cond then (bind_params st.1 params, st.2 ++ [EBind source]) else st.

    (** [CommandController(createCommand, viewName, options).handle(request)];
        returns the calls made on the command, the result and the heap. *)
Definition cc_handle (viewName : option string) (o : options)
        (rq : request) (h : ModelAndView.heap)
        : list cmd_event * handled * ModelAndView.heap :=
      let command := createCommand rq in
      let params : list (string * string) := [] in
      let st0 := (command, [ECreate]) in
      let st1 := bind_step (opt (bindRouteParams o) true) "params" (req_params rq) st0 in
      let st2 := bind_step (opt (bindRequestParams o) true) "query" (req_query rq) st1 in
      let st3 := bind_step (opt (bindRequestBody o) true) "body" (req_body rq) st2 in
      let st4 := bind_step (opt (bindCookies o) false) "cookies" (req_cookies rq) st3 in
      let calls := st4.2 ++ [EExecute st4.1] in
      match execute st4.1 with
      | RModel a =>
          let '(mav, h1) :=
            ModelAndView.create (VStr (parseViewName viewName params)) (VObj a) h in
          (calls, HMav mav, h1)
      | RRedirect r =>
          let '(mav, h1) := ModelAndView.create VUndefined VUndefined h in
          (calls, HMav (ModelAndView.sendRedirect r mav), h1)
      | ROther v =>
          let '(m, h1) := ModelAndView.new_Model v h in
          let '(mav, h2) :=
            ModelAndView.create (VStr (parseViewName viewName params)) m h1 in
          (calls, HMav mav, h2)
      end.

  End Handle.

  Section Message.
    (** [createCommand(message)] for [MessageController]: the own properties
        of the new command object, from the message object. *)
Variable createCommand : obj -> obj.
Variable execute : obj -> exec_result.

    (** [MessageController(createCommand).handle(message)] *)
Definition mc_handle (message : obj) (h : ModelAndView.heap)
        : list cmd_event * handled * ModelAndView.heap :=
      let command := createCommand message in
      let bound := Binder.bind command [Some message] in
      let calls := [ECreate; EBind "message"; EExecute bound] in
      match execute bound with
      | RModel a => (calls, HModel (VObj a), h)
      | RRedirect r =>
          let '(m, h1) := ModelAndView.new_Model r h in (calls, HModel m, h1)
      | ROther v =>
          let '(m, h1) := ModelAndView.new_Model v h in (calls, HModel m, h1)
      end.
  End Message.

End Controller.

(** ** ModuleManager.js *)
Module ModuleManager.

  (** [SERVER_TYPE] *)
Inductive server_type := WEB_SOCKET | EXPRESS.

Definition server_type_eqb (a b : server_type) : bool :=
    match a, b with
    | WEB_SOCKET, WEB_SOCKET | EXPRESS, EXPRESS => true
    | _, _ => false
    end.

  (** The request handler passed to [module.init]. *)
Inductive handler_kind := HWebSocket | HExpress.

  (** An entry of [modulesDescriptions]; [md_context] is
      [module.getContextPath()], [md_type] is [module.getServerType()],
      [md_init_throws] tells whether [module.init(...)] throws (Module.js,
      second revision, throws "The handler cannot be null." on every call
      when a configured route has a falsy handler; the first and third
      revisions throw on a route whose path is not a valid regular
      expression). *)
Record description := mkDesc {
    md_context : string;
    md_type : server_type;
    md_init_throws : bool;
    md_initialized : bool
  }.

  (** [moduleDescription.initialized = true] *)
Definition set_initialized (d : description) : description :=
    mkDesc (md_context d) (md_type d) (md_init_throws d) true.

  (** [modulesDescriptions] and the log of [module.init] calls (position of
      the module in [modulesDescriptions], handler given). *)
Record st := mkSt {
    modulesDescriptions : list description;
    inits : list (nat * handler_kind)
  }.

Definition empty : st := mkSt [] [].

  (** [register(module)], i.e. [configureModule(module)]: the description
      is pushed first, so it stays when [module.init] throws. *)
Definition configureModule (ctx : string) (ty : server_type) (throws : bool) (s : st) : st :=
    let k := length (modulesDescriptions s) in
    let descs := modulesDescriptions s ++ [mkDesc ctx ty throws false] in
    if server_type_eqb ty WEB_SOCKET
    then mkSt descs (inits s ++ [(k, HWebSocket)])
    else mkSt descs (inits s).

  (** The loop of the front controller installed by
      [configureFrontController], from position [k] on, over the
      descriptions [ds].  A throwing [module.init] leaves the loop and the
      handler (so [initialized] stays [false], the later modules are not
      looked at, and [next()] is not called); the boolean tells whether
      that happened. *)
Fixpoint front_loop (path : string) (k : nat) (ds : list description) (s : st) : st * bool :=
    match ds with
    | [] => (s, false)
    | d :: ds' =>
        if String.prefix (md_context d) path && negb (md_initialized d)
        then
          let s1 := mkSt (modulesDescriptions s) (inits s ++ [(k, HExpress)]) in
          if md_init_throws d then (s1, true)
          else front_loop path (S k) ds'
                 (mkSt (<[k := set_initialized d]> (modulesDescriptions s1)) (inits s1))
        else front_loop path (S k) ds' s
    end.

  (** The [app.all("*", ...)] handler for a request whose path
      ([req.route.params[0]]) is [path]. *)
Definition front_controller (path : string) (s : st) : st :=
    (front_loop path 0 (modulesDescriptions s) s).1.

Inductive ev :=
  | Register (ctx : string) (ty : server_type) (throws : bool)
  | Request (path : string).

Definition step (s : st) (e : ev) : st :=
    match e with
    | Register ctx ty throws => configureModule ctx ty throws s
    | Request p => front_controller p s
    end.

Definition run (evs : list ev) : st := foldl step empty evs.

  (** Number of [module.init] calls for the module at position [k]. *)
Definition init_count (k : nat) (s : st) : nat :=
    length (List.filter (fun x => Nat.eqb x.1 k) (inits s)).

Definition is_register (e : ev) : bool :=
    match e with Register _ _ _ => true | Request _ => false end.

  (** Number of modules registered by a prefix of the events. *)
Definition registered (evs : list ev) : nat := length (List.filter is_register evs).

  (** A request whose path starts with [ctx] arrived after the [k]-th
      (0-based) registration. *)
Definition matched (evs : list ev) (k : nat) (ctx : string) : Prop :=
    exists pre p post, evs = pre ++ Request p :: post /\
      k < registered pre /\ String.prefix ctx p = true.

  (** The number of such requests; [n] modules are registered before
      [evs]. *)
Fixpoint match_count_from (n k : nat) (ctx : string) (evs : list ev) : nat :=
    match evs with
    | [] => 0
    | Register _ _ _ :: evs' => match_count_from (S n) k ctx evs'
    | Request p :: evs' =>
        (if Nat.ltb k n && String.prefix ctx p then 1 else 0) +
        match_count_from n k ctx evs'
    end.

Definition match_count (evs : list ev) (k : nat) (ctx : string) : nat :=
    match_count_from 0 k ctx evs.

  (** The test of the front controller's loop for one description. *)
Definition cond (path : string) (d : description) : bool :=
    String.prefix (md_context d) path && negb (md_initialized d).

  (** The loop gets past the description [d]: it does not call a throwing
      [init] on it. *)
Definition passes (path : string) (d : description) : bool :=
    negb (cond path d && md_init_throws d).

  (** [init] calls made at registration: one for a WEB_SOCKET module. *)
Definition eager_inits (d : description) : nat :=
    if server_type_eqb (md_type d) WEB_SOCKET then 1 else 0.

  (** The description after the front controller reached it on a request
      on [path]. *)
Definition upd (path : string) (d : description) : description :=
    if cond path d && negb (md_init_throws d) then set_initialized d else d.

End ModuleManager.

(** ** Route registration (Module.js [registerRoute]) and
    [ExpressRequestHandler.validate] *)
Module Route.

  (** [new RegExp("^" + path + "$")], kept as its source text. *)
Definition pattern_of (path : string) : string :=
    String.append "^" (String.append path "$").

  Section Validate.
    (** [RegExp.prototype.test]: the JavaScript regular-expression engine,
        outside this repository. *)
Variable regex_test : string -> string -> bool.

    (** [validate(endpoint, req)] for the endpoint registered with [path];
        [pathname] is [url.parse(req.url).pathname] and [modulePath] is
        [req.modulePath]. *)
Definition validate (path pathname modulePath : string) : bool :=
      let p := Controller.js_replace_first pathname modulePath "" in
      let p := if String.eqb p "" then "/" else p in
      regex_test (pattern_of path) p.
  End Validate.

End Route.

(** ** [Module.filter(filter, order)] (Module.js) *)
Module Filters.
  Import Dispatch.

  (** [array[i] = x] on a JavaScript array with holes: grows the array
      when [i] is past its end. *)
Definition js_set {A} (l : list (option A)) (i : nat) (x : option A)
      : list (option A) :=
    if decide (i < length l) then <[i := x]> l
    else l ++ replicate (i - length l) None ++ [x].

  (** [filter(filter, order)]; [order] is [undefined] ([None]) or a
      0-based index. *)
Definition add_filter (fs : buckets) (f : filter) (order : option nat) : buckets :=
    let idx := match order with Some o => o | None => length fs end in
    let fs1 := match fs !! idx with
               | Some (Some _) => fs
               | _ => js_set fs idx (Some [])
               end in
    match fs1 !! idx with
    | Some (Some l) => <[idx := Some (l ++ [f])]> fs1
    | _ => fs1
    end.

  (** One [filter] call. *)
Abbreviation step_reg := (fun fs (r : filter * option nat) => add_filter fs r.1 r.2).

  (** Successive [filter] calls on a fresh module. *)
Definition register_all (regs : list (filter * option nat)) : buckets :=
    foldl step_reg [] regs.

End Filters.

(** ** JavaScript string methods used by the code below *)
Module JsString.

  (** [s.substr(start)] for [start >= 0]. *)
Definition substr_from (start : nat) (s : string) : string :=
    String.substring start (String.length s - start) s.

  (** [s.substr(-n)]: [start = max(length + (-n), 0)], so [substr(-0)] is
      the whole string, and so is [substr(-n)] for [n] past the length. *)
Definition substr_last (n : nat) (s : string) : string :=
    if Nat.eqb n 0 then s
    else String.substring (String.length s - n) n s.

  (** [s.substr(0, n)] *)
Definition substr_first (n : nat) (s : string) : string :=
    String.substring 0 n s.

  (** [s.indexOf(pat)]: the first position of [pat] in [s], [-1] if none. *)
Definition indexOf (s pat : string) : Z :=
    match String.index 0 pat s with
    | Some n => Z.of_nat n
    | None => (-1)%Z
    end.

  (** Scans [s] (at position [i] of the whole string) for the last
      position where [pat] starts. *)
Fixpoint last_index_from (pat s : string) (i : nat) (acc : Z) : Z :=
    let acc' := if String.prefix pat s then Z.of_nat i else acc in
    match s with
    | EmptyString => acc'
    | String _ s' => last_index_from pat s' (S i) acc'
    end.

  (** [s.lastIndexOf(pat)]: the last position of [pat] in [s], [-1] if
      none. *)
Definition lastIndexOf (s pat : string) : Z := last_index_from pat s 0 (-1)%Z.

End JsString.

(** ** View names and view lookup (ExpressRequestHandler.js, and the same
    code in ExpressMiddleware.js) *)
Module View.
  Import JsString.

  (** [resolveViewFromRequest(req)], with [url = req.url]:
      [req.url.substr(req.url.lastIndexOf("/") + 1) || "index"]. *)
Definition resolveViewFromRequest (url : string) : string :=
    let viewName := substr_from (Z.to_nat (lastIndexOf url "/" + 1)) url in
    if String.eqb viewName "" then "index" else viewName.

  (** The view name [handle] gives a controller's ModelAndView whose view
      name is falsy, with [path = req.url]. *)
Definition handlerViewName (path : string) : string :=
    if String.eqb (substr_last 1 path) "/" then "index"
    else substr_from (Z.to_nat (lastIndexOf path "/" + 1)) path.

  (** [if (!modelAndView.viewName) { ... }] in [handle]. *)
Definition handle_viewName (viewName : value) (path : string) : value :=
    if truthy viewName then viewName else VStr (handlerViewName path).

  Section Lookup.
    (** [viewResolver.lookup(name)] of the module's view resolver, outside
        these files. *)
Variable resolve : string -> value.

    (** [lookup(view)]; [engines] are the own keys of [server.engines] in
        enumeration order. *)
Fixpoint lookup (engines : list string) (view : string) : value :=
      match engines with
      | [] => VNull
      | engine :: rest =>
          let resolvedView :=
            if String.eqb (substr_last (String.length engine) view) engine
            then resolve view
            else resolve (String.append view engine) in
          if truthy resolvedView then resolvedView else lookup rest view
      end.
  End Lookup.

End View.

(** ** Path joins of Module.js: [staticContent] (first and third
    revisions, lines 141-152 and 635-646) and
    [processUnregisteredEndpoints] (second revision, lines 365-381) *)
Module Paths.
  Import JsString.

  (** The [scopedPath] that [staticContent(uri, path)] maps. *)
Definition staticScopedPath (contextPath uri : string) : string :=
    let scopedPath :=
      if negb (String.eqb (substr_last 1 contextPath) "/")
      then String.append contextPath "/" else contextPath in
    if String.eqb (substr_first 1 uri) "/"
    then String.append scopedPath (substr_from 1 uri)
    else String.append scopedPath uri.

  (** The [path] that [processUnregisteredEndpoints] registers for an
      endpoint. *)
Definition endpointPath (contextPath epPath : string) : string :=
    if String.eqb (substr_last 1 contextPath) "/" && Z.eqb (indexOf epPath "/") 0
    then String.append contextPath (substr_from 1 epPath)
    else String.append contextPath epPath.

End Paths.

(** ** Endpoint registration of Module.js, second revision (lines
    311-485) *)
Module ModuleV2.

  (** An entry of [endpoints]: its [path] and [registered] flag. *)
Record endpoint := mkEp {
    ep_path : string;
    registered : bool
  }.

  (** Calls made on the request handler: [endpoint(path, ...)] for the
      endpoint at a position, and [setFilters(filters)]; the first argument
      names the request handler. *)
Inductive call :=
  | CEndpoint (rh : nat) (k : nat) (path : string)
  | CSetFilters (rh : nat).

  (** The module's [endpoints] and [requestHandler] ([None] is [null]),
      and the calls made so far. *)
Record st := mkSt {
    endpoints : list endpoint;
    requestHandler : option nat;
    calls : list call
  }.

Definition create : st := mkSt [] None [].

  (** The [forEach] of [processUnregisteredEndpoints] from position [k]. *)
Fixpoint register_from (ctx : string) (rh : nat) (k : nat) (eps : list endpoint)
      : list endpoint * list call :=
    match eps with
    | [] => ([], [])
    | ep :: rest =>
        let '(rest', cs) := register_from ctx rh (S k) rest in
        if registered ep then (ep :: rest', cs)
        else (mkEp (ep_path ep) true :: rest',
              CEndpoint rh k (Paths.endpointPath ctx (ep_path ep)) :: cs)
    end.

  (** [processUnregisteredEndpoints()] *)
Definition processUnregisteredEndpoints (ctx : string) (s : st) : st :=
    match requestHandler s with
    | None => s
    | Some rh =>
        let '(eps, cs) := register_from ctx rh 0 (endpoints s) in
        mkSt eps (Some rh) (calls s ++ cs)
    end.

  (** [route(path, handler, options)]; [handler_ok] is [!!handler]. The
      boolean is [false] when the call throws. *)
Definition route (ctx : string) (path : string) (handler_ok : bool) (s : st)
      : st * bool :=
    if negb handler_ok then (s, false)
    else (processUnregisteredEndpoints ctx
            (mkSt (endpoints s ++ [mkEp path false]) (requestHandler s) (calls s)),
          true).

  (** The [for (var path in config.routes)] loop of [init]; [routes] are
      the own keys of [config.routes] in enumeration order, with [!!handler]
      of each route. An exception leaves the loop and [init]. *)
Fixpoint route_all (ctx : string) (routes : list (string * bool)) (s : st)
      : st * bool :=
    match routes with
    | [] => (s, true)
    | (p, ok) :: rest =>
        let '(s1, b) := route ctx p ok s in
        if b then route_all ctx rest s1 else (s1, false)
    end.

  (** [init(theRequestHandler)] *)
Definition init (ctx : string) (routes : list (string * bool)) (rh : nat) (s : st)
      : st * bool :=
    let '(s1, b) := route_all ctx routes s in
    if negb b then (s1, false)
    else
      let s2 := processUnregisteredEndpoints ctx (mkSt (endpoints s1) (Some rh) (calls s1)) in
      (mkSt (endpoints s2) (requestHandler s2) (calls s2 ++ [CSetFilters rh]), true).

  (** Calls made on one module instance, with context path [ctx] and
      [config.routes] given as for [route_all]. *)
Inductive op :=
  | ORoute (path : string) (handler_ok : bool)
  | OInit (rh : nat).

  (** A call that throws leaves the state it reached; the caller goes on
      with the next call. *)
Definition step (ctx : string) (routes : list (string * bool)) (s : st) (o : op) : st :=
    match o with
    | ORoute p ok => (route ctx p ok s).1
    | OInit rh => (init ctx routes rh s).1
    end.

Definition run (ctx : string) (routes : list (string * bool)) (ops : list op) : st :=
    foldl (step ctx routes) create ops.

  (** The positions passed to [requestHandler.endpoint]. *)
Definition endpoint_positions (cs : list call) : list nat :=
    flat_map (fun c => match c with CEndpoint _ k _ => [k] | CSetFilters _ => [] end) cs.

  (** The request-handler calls agree with the endpoints: no position is
      passed twice, the positions passed are those of the registered
      endpoints, each with the joined path, and nothing is passed while
      [requestHandler] is [null]. *)
Definition calls_consistent (ctx : string) (s : st) : Prop :=
    List.NoDup (endpoint_positions (calls s)) /\
    (forall k, In k (endpoint_positions (calls s)) <->
               exists ep, endpoints s !! k = Some ep /\ registered ep = true) /\
    (forall rh k p, In (CEndpoint rh k p) (calls s) ->
       exists ep, endpoints s !! k = Some ep /\ p = Paths.endpointPath ctx (ep_path ep)) /\
    (requestHandler s = None -> calls s = []).

  (** Once [requestHandler] is set, every endpoint is registered. *)
Definition all_registered (s : st) : Prop :=
    requestHandler s <> None ->
    forall k ep, endpoints s !! k = Some ep -> registered ep = true.

End ModuleV2.

(** ** The module loops of ExpressMiddleware.js ([app.use] middleware,
    lines 170-202) and WebSocketMiddleware.js ([handleRequest], lines
    54-66), over the [modulesDescriptions] filled by [register]
    (RequestHandler.js lines 281-287, WebSocketMiddleware.js lines
    96-102) *)
Module Middleware.
  Import JsString.

  (** An entry of [modulesDescriptions]; [md_context] is
      [module.getContextPath()], [md_init_throws] tells whether
      [module.init()] throws (Module.js: the second revision throws when a
      configured route has a falsy handler, the first and third when a
      route path is not a valid regular expression). *)
Record mdesc := mkMd {
    md_context : string;
    md_init_throws : bool;
    md_initialized : bool
  }.

  (** [moduleDescription.initialized = true] *)
Definition set_initialized (d : mdesc) : mdesc :=
    mkMd (md_context d) (md_init_throws d) true.

  (** Observable calls: [module.init()] and [module.dispatch(...)] on the
      module at a position, the middleware's own [next()] (Express), and
      the original [handleRequest] (socket.io). *)
Inductive event :=
  | MwInit (k : nat)
  | MwDispatch (k : nat)
  | MwNext
  | MwOriginal.

Record st := mkSt {
    descs : list mdesc;
    events : list event
  }.

Definition empty : st := mkSt [] [].

  (** [register(module)]: pushes [{ initialized: false, module: module }]. *)
Definition register (ctx : string) (throws : bool) (s : st) : st :=
    mkSt (descs s ++ [mkMd ctx throws false]) (events s).

  (** The part common to [processNextModule] (matching module) and to the
      [forEach] callback of [handleRequest], for the module at position [k]:
      [module.init()] and [initialized = true] if it is not initialized,
      then [module.dispatch(...)] is entered.  The boolean tells whether an
      exception left it: a throwing [init()] skips the flag and the
      dispatch. *)
Definition init_and_dispatch (k : nat) (s : st) : st * bool :=
    match descs s !! k with
    | None => (s, false)
    | Some d =>
        if md_initialized d
        then (mkSt (descs s) (events s ++ [MwDispatch k]), false)
        else
          let s0 := mkSt (descs s) (events s ++ [MwInit k]) in
          if md_init_throws d then (s0, true)
          else (mkSt (<[k := set_initialized d]> (descs s0)) (events s0 ++ [MwDispatch k]), false)
    end.

  (** How [module.dispatch(req, res, cont)] ends for the module at a
      position: it calls [cont] (once, as its last step, so that an
      exception raised in [cont] leaves it), it returns without calling
      [cont], or it throws without calling [cont] (Module.dispatch rethrows
      a filter's error). *)
Inductive reaction := RNext | RReturn | RThrow.

  Section Express.
Variable react : string -> nat -> reaction.

    (** [processNextModule(modulesDescriptions[k])]; [fuel] bounds the
        nesting (each level increments [index]); the boolean tells whether
        an exception left it. *)
Fixpoint processNextModule (pathname : string) (fuel k : nat) (s : st) : st * bool :=
      match descs s !! k with
      | None => (mkSt (descs s) (events s ++ [MwNext]), false)
      | Some d =>
          match fuel with
          | O => (s, false)
          | S fuel' =>
              if Z.eqb (indexOf pathname (md_context d)) 0 then
                let '(s1, thrown) := init_and_dispatch k s in
                if thrown then (s1, true)
                else
                  match react pathname k with
                  | RNext => processNextModule pathname fuel' (S k) s1
                  | RReturn => (s1, false)
                  | RThrow => (s1, true)
                  end
              else processNextModule pathname fuel' (S k) s
          end
      end.

    (** The [app.use] middleware for a request whose pathname is
        [pathname]. *)
Definition express_request (pathname : string) (s : st) : st * bool :=
      processNextModule pathname (length (descs s)) 0 s.
  End Express.

  Section WebSocket.
    (** [module.dispatch(req, res, function () { })] throws for the module
        at a position. *)
Variable dispatch_throws : nat -> bool.

    (** The [forEach] of [handleRequest], over the positions [ks]. *)
Fixpoint ws_loop (ks : list nat) (s : st) : st * bool :=
      match ks with
      | [] => (s, false)
      | k :: ks' =>
          let '(s1, thrown) := init_and_dispatch k s in
          if thrown || dispatch_throws k then (s1, true) else ws_loop ks' s1
      end.

    (** The overriding [websocket.handleRequest(req, res)]: the original
        [handleRequest] is called only when the [forEach] ends normally. *)
Definition ws_request (s : st) : st * bool :=
      let '(s1, thrown) := ws_loop (seq 0 (length (descs s))) s in
      if thrown then (s1, true) else (mkSt (descs s1) (events s1 ++ [MwOriginal]), false).
  End WebSocket.

Inductive op := ORegister (ctx : string) (throws : bool) | ORequest (pathname : string).

  (** One operation; an exception of a request goes to the server, the
      state stays as the request left it. *)
Definition express_step (react : string -> nat -> reaction) (s : st) (o : op) : st :=
    match o with
    | ORegister ctx throws => register ctx throws s
    | ORequest p => (express_request react p s).1
    end.

Definition ws_step (dispatch_throws : nat -> bool) (s : st) (o : op) : st :=
    match o with
    | ORegister ctx throws => register ctx throws s
    | ORequest _ => (ws_request dispatch_throws s).1
    end.

  (** Number of [module.init()] calls for the module at position [k]. *)
Definition init_count (k : nat) (evs : list event) : nat :=
    length (List.filter (fun e => match e with MwInit j => Nat.eqb j k | _ => false end) evs).

  (** Whether [processNextModule] goes past the module [d] at position [j]
      on a request on [pathname]: it does not match, or its [init()] (if
      called) returns and its dispatch calls its continuation. *)
Definition mw_passes (react : string -> nat -> reaction) (pathname : string) (j : nat)
    (d : mdesc) : bool :=
    if Z.eqb (indexOf pathname (md_context d)) 0
    then (md_initialized d || negb (md_init_throws d)) &&
         match react pathname j with RNext => true | _ => false end
    else true.

  (** [processNextModule], started at position [k], reaches position [j]:
      it goes past every module from [k] to [j - 1]. *)
Definition mw_reaches (react : string -> nat -> reaction) (pathname : string)
    (ds : list mdesc) (k j : nat) : Prop :=
    forall i di, k <= i -> i < j -> ds !! i = Some di -> mw_passes react pathname i di = true.

  (** Whether the [forEach] of [handleRequest] goes past the module [d] at
      position [j]. *)
Definition ws_passes (dispatch_throws : nat -> bool) (j : nat) (d : mdesc) : bool :=
    (md_initialized d || negb (md_init_throws d)) && negb (dispatch_throws j).

  (** The events of a module reached by the [forEach] that it goes past. *)
Definition ws_events (j : nat) (d : mdesc) : list event :=
    (if md_initialized d then [] else [MwInit j]) ++ [MwDispatch j].

  (** The invariant of the middleware state: a module whose [init()]
      returns had it called once exactly when its flag is true; a module
      whose [init()] throws keeps its flag false and is never dispatched;
      every dispatch of a module comes after an [init()] of it. *)
Definition mw_inv (s : st) : Prop :=
    (forall j, match descs s !! j with
               | Some d =>
                   if md_init_throws d
                   then md_initialized d = false /\ ~ In (MwDispatch j) (events s)
                   else init_count j (events s) = if md_initialized d then 1 else 0
               | None => init_count j (events s) = 0
               end) /\
    (forall j pre post, events s = pre ++ MwDispatch j :: post -> In (MwInit j) pre).

End Middleware.

(** ** [Module.filter(filter, order)], third revision (Module.js lines
    743-751) *)
Module FiltersV3.
  Import Dispatch.

  (** [Config.filters] is an object whose keys are array indices; [for in]
      enumerates such keys in ascending numeric order, as [forEach] visits
      the slots of an array, so it is the bucket array of [Dispatch]. The
      default index is [0]; otherwise the code is that of [Filters]. *)
Definition filter_v3 (fs : buckets) (f : filter) (order : option nat) : buckets :=
    Filters.add_filter fs f (Some (match order with Some o => o | None => 0 end)).

Definition register_all_v3 (regs : list (filter * option nat)) : buckets :=
    foldl (fun fs r => filter_v3 fs r.1 r.2) [] regs.

End FiltersV3.

(** ** [Module.dispatch] over several endpoints (Dispatch) *)
Module DispatchLoop.
  Import Dispatch.

  (** The endpoint passes the request on: it is not valid, or its
      controller cannot handle the request. *)
Definition declines (ep : endpoint) : Prop :=
    ep_valid ep = false \/ ep_canHandle ep = false.

  (** The events of an endpoint that passes the request on, when every
      filter calls [next()]: the filters run again for each valid
      endpoint. *)
Definition declined (fl : list filter) (ep : endpoint) : list event :=
    if ep_valid ep
    then map (fun f => EExecute (filter_id f)) fl ++
           [EHandle (ep_id ep); ENext (ep_id ep) InfoNone]
    else [ENext (ep_id ep) InfoNone].

End DispatchLoop.

(** * Properties *)

(** ** Model *)
Module ModelFacts.
  Import Model.

Lemma run_snoc m ops o : run m (ops ++ [o]) = step (run m ops) o.
  Proof. unfold run. rewrite foldl_app. reflexivity. Qed.

Lemma run_state ops :
    callbacks (run create ops) = waited ops /\
    deferred (run create ops) = existsb is_defer ops.
  Proof.
    induction ops as [|o ops IH] using rev_ind; [split; reflexivity|].
    rewrite run_snoc. unfold waited. rewrite flat_map_app, existsb_app.
    destruct IH as [Hc Hd]. fold (waited ops).
    destruct (run create ops) as [c d i]; cbn in Hc, Hd; subst c d.
    destruct o as [| |cb]; cbn.
    - rewrite app_nil_r, orb_true_r. auto.
    - unfold resume; cbn. rewrite app_nil_r, orb_false_r.
      destruct (existsb is_defer ops); auto.
    - unfold wait; cbn. rewrite orb_false_r.
      destruct (existsb is_defer ops); auto.
  Qed.

  (** With no [defer], [wait] notifies the whole list each time. *)
Lemma waits_invoked (l : list nat) :
    run create (map Wait l) =
      mk l false (flat_map (fun k => firstn k l) (seq 1 (length l))).
  Proof.
    induction l as [|x l IH] using rev_ind; [reflexivity|].
    rewrite map_app; cbn [map]; rewrite run_snoc, IH. cbn. unfold wait, notify. cbn.
    rewrite length_app, Nat.add_1_r, seq_S, flat_map_app. cbn.
    rewrite firstn_all2 by (rewrite length_app; cbn; lia).
    rewrite app_nil_r. f_equal. f_equal.
    rewrite !flat_map_concat_map. f_equal. apply map_ext_in. intros k Hk. apply in_seq in Hk.
    rewrite firstn_app. replace (k - length l) with 0 by lia. cbn.
    rewrite app_nil_r. reflexivity.
  Qed.

Lemma count_firstn (l : list nat) (i : nat) :
    List.NoDup l -> i < length l -> forall k,
    count_occ Nat.eq_dec (firstn k l) (nth i l 0) = if Nat.ltb i k then 1 else 0.
  Proof.
    intros Hnd Hi k.
    destruct (Nat.ltb i k) eqn:E.
    - apply Nat.ltb_lt in E. apply NoDup_count_occ'.
      + pose proof Hnd as Hnd'. rewrite <- (firstn_skipn k l) in Hnd'.
        apply NoDup_app_remove_r in Hnd'. exact Hnd'.
      + rewrite <- (firstn_skipn k l) at 1.
        rewrite app_nth1 by (rewrite length_firstn; lia).
        apply nth_In. rewrite length_firstn. lia.
    - apply Nat.ltb_ge in E.
      assert (H1 : count_occ Nat.eq_dec l (nth i l 0) = 1)
        by (apply NoDup_count_occ'; [exact Hnd | apply nth_In; exact Hi]).
      assert (H2 : In (nth i l 0) (skipn k l)).
      { rewrite <- (firstn_skipn k l) at 1.
        rewrite app_nth2 by (rewrite length_firstn; lia).
        apply nth_In. rewrite length_firstn, length_skipn. lia. }
      apply (count_occ_In Nat.eq_dec) in H2.
      rewrite <- (firstn_skipn k l) in H1 at 1.
      rewrite count_occ_app in H1. lia.
  Qed.

Lemma count_flat_map_seq (l : list nat) (i : nat) (a n : nat) :
    List.NoDup l -> i < length l ->
    count_occ Nat.eq_dec (flat_map (fun k => firstn k l) (seq a n)) (nth i l 0) =
      length (List.filter (fun k => Nat.ltb i k) (seq a n)).
  Proof.
    intros Hnd Hi. revert a. induction n as [|n IH]; intros a; [reflexivity|].
    cbn [seq flat_map List.filter]. rewrite count_occ_app, IH, count_firstn by assumption.
    destruct (Nat.ltb i a); reflexivity.
  Qed.

Lemma filter_ltb_seq (i n : nat) :
    i < n -> length (List.filter (fun k => Nat.ltb i k) (seq 1 n)) = n - i.
  Proof.
    intros H. induction n as [|n IH]; [lia|].
    rewrite seq_S, List.filter_app, length_app. cbn [List.filter].
    replace (Nat.ltb i (1 + n)) with true by (symmetry; apply Nat.ltb_lt; lia).
    cbn [length].
    destruct (Nat.eq_dec i n) as [->|Hne].
    - replace (List.filter (fun k => Nat.ltb n k) (seq 1 n)) with (@nil nat); [cbn; lia|].
      rewrite <- (List.filter_false (seq 1 n)).
      apply List.filter_ext_in. intros x Hx%in_seq.
      symmetry. apply Nat.ltb_ge. lia.
    - rewrite IH by lia. lia.
  Qed.

  (** C2: a model that is not deferred runs the callbacks synchronously
      from [wait], the new one included; a deferred model only stores the
      callback, and [resume] then runs every stored callback; [resume] on a
      model never deferred runs nothing. The model is deferred exactly when
      [defer] was called, and the stored callbacks are all those passed to
      [wait]. *)
Theorem model_wait_resume (ops : list op) (cb : nat) :
    let m := run create ops in
    callbacks m = waited ops /\
    deferred m = existsb is_defer ops /\
    callbacks (wait cb m) = callbacks m ++ [cb] /\
    invoked (wait cb m) =
      invoked m ++ (if deferred m then [] else callbacks m ++ [cb]) /\
    invoked (resume m) =
      invoked m ++ (if deferred m then callbacks m else []).
  Proof.
    cbv zeta. destruct (run_state ops) as [Hc Hd].
    destruct (run create ops) as [c d i]; cbn in *.
    unfold wait, resume, notify; cbn.
    destruct d; cbn; rewrite ?app_nil_r; repeat split; assumption.
  Qed.

  (** C9: on a model never deferred, after [n] calls to [wait] the [i]-th
      callback (1-based) has run [n - i + 1] times. *)
Theorem model_wait_renotifies (cbs : list nat) (i : nat) :
    List.NoDup cbs -> 1 <= i <= length cbs ->
    count_occ Nat.eq_dec (invoked (run create (map Wait cbs))) (nth (i - 1) cbs 0) =
      length cbs - i + 1.
  Proof.
    intros Hnd Hi. rewrite waits_invoked. cbn [invoked].
    rewrite count_flat_map_seq by (assumption || lia).
    rewrite filter_ltb_seq by lia. lia.
  Qed.

Lemma model_wait_renotifies_witness :
    List.NoDup [7; 8; 9] /\ 1 <= 1 <= length [7; 8; 9] /\
    count_occ Nat.eq_dec (invoked (run create (map Wait [7; 8; 9]))) (nth 0 [7; 8; 9] 0) = 3.
  Proof.
    split; [repeat constructor; cbn; intuition lia|].
    split; [cbn; lia|].
    apply (model_wait_renotifies [7; 8; 9] 1); [repeat constructor; cbn; intuition lia | cbn; lia].
  Defined.

End ModelFacts.

(** ** ModelAndView *)
Module ModelAndViewFacts.
  Import ModelAndView.

Lemma send_all_redirect (rs : list value) (mav : t) :
    getRedirect (send_all rs mav) = List.last rs (getRedirect mav).
  Proof.
    revert mav. induction rs as [|r rs IH] using rev_ind; intros mav; [reflexivity|].
    unfold send_all. rewrite foldl_app. cbn. rewrite List.last_last. reflexivity.
  Qed.

  (** C8: the constructor keeps a truthy [theModel] and otherwise allocates
      a fresh Model, so the model field is never null or undefined;
      [getRedirect] is null until [sendRedirect] is called and then returns
      the last redirect passed. *)
Theorem mav_model_and_redirect (vn tm : value) (h : heap) (rs : list value) :
    let '(mav, h') := create vn tm h in
    (if truthy tm then model mav = tm /\ h' = h
     else model mav = VObj (length h) /\ h' = h ++ [VUndefined]) /\
    model mav <> VNull /\ model mav <> VUndefined /\
    getRedirect mav = VNull /\
    getRedirect (send_all rs mav) = List.last rs VNull.
  Proof.
    unfold create. destruct (truthy tm) eqn:E; cbn.
    - rewrite send_all_redirect. cbn.
      repeat split; intros ->; discriminate.
    - rewrite send_all_redirect. cbn.
      repeat split; discriminate.
  Qed.

End ModelAndViewFacts.

(** ** Filter chain *)
Module DispatchFacts.
  Import Dispatch.

Ltac unfold_M :=
    unfold mbind, mret, M_bind, M_ret, shift, try_catch, emit, raise in *.

Lemma processFilter_None fuel cb : processFilter fuel cb None = cb false None.
  Proof. destruct fuel; reflexivity. Qed.

Lemma processFilter_Some fuel cb f :
    processFilter (S fuel) cb (Some f) =
      (g ← shift;
       try_catch
         (emit (EExecute (filter_id f)) ;;
          run_actions (processFilter fuel cb g) (cb true None) (filter_id f)
            (execute f))
         (fun cause => cb true (Some cause))).
  Proof. reflexivity. Qed.

Lemma shift_eq s :
    shift s = (mkSt (tail (filterList s)) (index s) (trace s), Ok (head (filterList s))).
  Proof. destruct s as [[|f l] i t]; reflexivity. Qed.

Lemma processFilter_Some_eq fuel cb f s :
    processFilter (S fuel) cb (Some f) s =
      match run_actions (processFilter fuel cb (head (filterList s))) (cb true None)
              (filter_id f) (execute f)
              (mkSt (tail (filterList s)) (index s) (trace s ++ [EExecute (filter_id f)])) with
      | (s', Ok a) => (s', Ok a)
      | (s', Exc e) => cb true (Some e) s'
      end.
  Proof. destruct s as [[|g l] i t]; reflexivity. Qed.

Lemma processFilters_eq fs cb s :
    processFilters fs cb s =
      let '(s', r) := processFilter (S (length (flatten fs))) cb (head (flatten fs))
                        (mkSt (tail (flatten fs)) (index s) (trace s)) in
      (mkSt (filterList s) (index s') (trace s'), r).
  Proof.
    unfold processFilters, with_filterList. unfold mbind, M_bind.
    destruct (flatten fs); reflexivity.
  Qed.

Lemma run_raise nxt stop id a rest e s :
    raised id a = Some e -> run_actions nxt stop id (a :: rest) s = (s, Exc e).
  Proof. destruct a; cbn; intros H; try discriminate; injection H as <-; reflexivity. Qed.

  (** A filter that does not call [next()] calls [stop()] some number of
      times, then returns or throws. *)
Lemma no_next_actions id (acts : list chain_action) :
    ~ In ANext acts ->
    exists k rest, acts = replicate k AStop ++ rest /\
      (rest = [] \/ exists a r' e, rest = a :: r' /\ raised id a = Some e).
  Proof.
    induction acts as [|a acts IH]; intros Hn.
    - exists 0, []. auto.
    - destruct a as [| | |v].
      + exfalso. apply Hn. left. reflexivity.
      + destruct IH as (k & rest & -> & Hr); [intros H; apply Hn; right; exact H|].
        exists (S k), rest. auto.
      + exists 0, (AThrow :: acts). split; [reflexivity|]. right. eauto.
      + exists 0, (AThrowValue v :: acts). split; [reflexivity|]. right. eauto.
  Qed.

(** *** The log only grows *)

Lemma grows_ret {A} (a : A) : grows (mret a : M A).
  Proof. intros s. exists []. rewrite List.app_nil_r. reflexivity. Qed.

Lemma grows_bind {A B} (m : M A) (k : A -> M B) :
    grows m -> (forall a, grows (k a)) -> grows (mbind k m).
  Proof.
    intros Hm Hk s. unfold mbind, M_bind.
    destruct (Hm s) as [t Ht]. destruct (m s) as [s1 [a|e]]; cbn in Ht |- *.
    - destruct (Hk a s1) as [t2 H2]. exists (t ++ t2).
      rewrite H2, Ht, app_assoc. reflexivity.
    - exists t. exact Ht.
  Qed.

Lemma grows_emit ev : grows (emit ev).
  Proof. intros s. exists [ev]. reflexivity. Qed.

Lemma grows_shift : grows shift.
  Proof. intros s. exists []. rewrite shift_eq. cbn. rewrite List.app_nil_r. reflexivity. Qed.

Lemma grows_raise {A} e : grows (raise e : M A).
  Proof. intros s. exists []. rewrite List.app_nil_r. reflexivity. Qed.

Lemma grows_get_index : grows get_index.
  Proof. intros s. exists []. rewrite List.app_nil_r. reflexivity. Qed.

Lemma grows_set_index i : grows (set_index i).
  Proof. intros s. exists []. rewrite List.app_nil_r. reflexivity. Qed.

Lemma grows_try_catch m h :
    grows m -> (forall e, grows (h e)) -> grows (try_catch m h).
  Proof.
    intros Hm Hh s. unfold try_catch.
    destruct (Hm s) as [t Ht]. destruct (m s) as [s1 [a|e]]; cbn in Ht |- *.
    - exists t. exact Ht.
    - destruct (Hh e s1) as [t2 H2]. exists (t ++ t2).
      rewrite H2, Ht, app_assoc. reflexivity.
  Qed.

Lemma grows_with_filterList l m : grows m -> grows (with_filterList l m).
  Proof.
    intros Hm s. unfold with_filterList.
    destruct (Hm (mkSt l (index s) (trace s))) as [t Ht].
    destruct (m (mkSt l (index s) (trace s))) as [s1 r]. exists t. exact Ht.
  Qed.

Lemma grows_run_actions nxt stop id acts :
    grows nxt -> grows stop -> grows (run_actions nxt stop id acts).
  Proof.
    intros Hn Hs. induction acts as [|[| | |v] acts IH]; cbn [run_actions];
      first [apply grows_ret | apply grows_raise | apply grows_bind; auto].
  Qed.

Lemma grows_processFilter fuel cb g :
    (forall b e, grows (cb b e)) -> grows (processFilter fuel cb g).
  Proof.
    intros Hcb. revert g. induction fuel as [|fuel IH]; intros [f|]; cbn [processFilter];
      try apply Hcb; try apply grows_ret.
    apply grows_bind; [apply grows_shift|]. intros g.
    apply grows_try_catch; [|intros e; apply Hcb].
    apply grows_bind; [apply grows_emit|]. intros _.
    apply grows_run_actions; [apply IH | apply Hcb].
  Qed.

Lemma grows_processFilters fs cb :
    (forall b e, grows (cb b e)) -> grows (processFilters fs cb).
  Proof.
    intros Hcb. unfold processFilters. apply grows_with_filterList.
    apply grows_bind; [apply grows_shift|]. intros g. apply grows_processFilter. exact Hcb.
  Qed.

Lemma grows_dispatch_callback handle next :
    (forall k, (forall i, grows (k i)) -> grows (handle k)) ->
    (forall i, grows (next i)) ->
    forall b e, grows (dispatch_callback handle next b e).
  Proof.
    intros Hh Hn b e. unfold dispatch_callback. apply grows_bind.
    - destruct e as [e|]; [destruct (exn_truthy e)|]; auto using grows_ret.
    - intros _. destruct b; auto.
  Qed.

Lemma grows_express_handle ep k :
    (forall i, grows (k i)) -> grows (express_handle ep k).
  Proof.
    intros Hk. unfold express_handle. apply grows_bind; [apply grows_emit|].
    intros _. destruct (ep_canHandle ep); auto using grows_ret.
  Qed.

Lemma grows_pne fuel : forall fs eps e, grows (processNextEndpoint fuel fs eps e).
  Proof.
    induction fuel as [|fuel IH]; intros fs eps [ep|]; cbn [processNextEndpoint];
      try apply grows_emit; try apply grows_ret.
    assert (Hk : forall i, grows (emit (ENext (ep_id ep) i) ;;
                   match i with
                   | InfoError err => raise err
                   | InfoCancel => mret tt
                   | InfoNone =>
                       idx ← get_index;
                       set_index (S idx) ;;
                       processNextEndpoint fuel fs eps (eps !! S idx)
                   end)).
    { intros i. apply grows_bind; [apply grows_emit|]. intros _.
      destruct i; [|apply grows_raise|apply grows_ret].
      apply grows_bind; [apply grows_get_index|]. intros idx.
      apply grows_bind; [apply grows_set_index|]. intros _. apply IH. }
    unfold dispatch. destruct (negb (ep_valid ep)); [apply Hk|].
    apply grows_processFilters, grows_dispatch_callback; [|exact Hk].
    intros k Hk'. apply grows_express_handle. exact Hk'.
  Qed.

  (** The continuation [Module.dispatch] gives [requestHandler.dispatch]
      for a valid endpoint: on [{ error }] it throws, on [{ cancel }] it
      returns, otherwise it goes on with the next endpoint. *)
Lemma pne_valid fuel fs eps ep s :
    ep_valid ep = true ->
    exists k, processNextEndpoint (S fuel) fs eps (Some ep) s =
                processFilters fs (dispatch_callback (express_handle ep) k) s /\
              (forall e s0, k (InfoError e) s0 =
                 (mkSt (filterList s0) (index s0) (trace s0 ++ [ENext (ep_id ep) (InfoError e)]),
                  Exc e)) /\
              (forall s0, k InfoCancel s0 = emit (ENext (ep_id ep) InfoCancel) s0) /\
              (forall s0, exists t, trace (k InfoNone s0).1 =
                 trace s0 ++ ENext (ep_id ep) InfoNone :: t) /\
              (forall i, grows (k i)).
  Proof.
    intros Hv. eexists. split.
    { cbn [processNextEndpoint]. unfold dispatch. rewrite Hv. reflexivity. }
    assert (Hnone : forall s0, exists t, trace
      ((emit (ENext (ep_id ep) InfoNone) ;;
        idx ← get_index; set_index (S idx) ;;
        processNextEndpoint fuel fs eps (eps !! S idx)) s0).1 =
      trace s0 ++ ENext (ep_id ep) InfoNone :: t).
    { intros s0.
      destruct (grows_pne fuel fs eps (eps !! S (index s0))
                  (mkSt (filterList s0) (S (index s0)) (trace s0 ++ [ENext (ep_id ep) InfoNone])))
        as [t Ht].
      exists t. unfold mbind, M_bind, emit, get_index, set_index. cbn -[processNextEndpoint].
      rewrite Ht. cbn. rewrite <- app_assoc. reflexivity. }
    split; [intros e s0; reflexivity|]. split; [intros s0; reflexivity|].
    split; [exact Hnone|].
    intros [|e|] s0.
    - destruct (Hnone s0) as [t Ht]. eexists. exact Ht.
    - exists [ENext (ep_id ep) (InfoError e)]. reflexivity.
    - exists [ENext (ep_id ep) InfoCancel]. reflexivity.
  Qed.

(** *** Filters that all call [next()] *)

  (** With every filter calling [next()], [processFilter] runs them all and
      then the callback, whose normal result it returns. *)
Lemma processFilter_all_next (cb : bool -> option exn -> M unit) (fl : list filter) :
    forall fuel f i T s',
    Forall is_next (f :: fl) -> length fl < fuel ->
    cb false None (mkSt [] i (T ++ map (fun g => EExecute (filter_id g)) (f :: fl))) =
      (s', Ok tt) ->
    processFilter fuel cb (Some f) (mkSt fl i T) = (s', Ok tt).
  Proof.
    induction fl as [|g fl IH]; intros fuel f i T s' Hn Hlen Hcb;
      destruct fuel as [|fuel]; try (cbn in Hlen; lia);
      rewrite processFilter_Some;
      apply Forall_cons in Hn as [Hf Hn]; unfold is_next in Hf;
      destruct f as [id acts]; cbn [execute filter_id] in *; subst acts;
      cbn [run_actions]; unfold_M; cbn -[processFilter].
    - rewrite processFilter_None. cbn in Hcb. rewrite Hcb. reflexivity.
    - rewrite (IH fuel g i (T ++ [EExecute id]) s' Hn ltac:(cbn in Hlen; lia)).
      + reflexivity.
      + rewrite <- app_assoc. exact Hcb.
  Qed.

Lemma processFilters_all_next (fs : buckets) (cb : bool -> option exn -> M unit)
      (L : list filter) (i : nat) (T : list event) (i' : nat) (T' : list event) :
    Forall is_next (flatten fs) ->
    cb false None (mkSt [] i (T ++ map (fun g => EExecute (filter_id g)) (flatten fs))) =
      (mkSt [] i' T', Ok tt) ->
    processFilters fs cb (mkSt L i T) = (mkSt L i' T', Ok tt).
  Proof.
    intros Hn Hcb. unfold processFilters, with_filterList.
    destruct (flatten fs) as [|f fl] eqn:Hfl.
    - unfold_M. cbn -[processFilter]. rewrite processFilter_None.
      cbn in Hcb. rewrite List.app_nil_r in Hcb. rewrite Hcb. reflexivity.
    - unfold_M. cbn -[processFilter].
      rewrite (processFilter_all_next cb fl (S (S (length fl))) f i T _ Hn ltac:(lia) Hcb).
      reflexivity.
  Qed.

  (** The same, whatever the callback does: the log of the callback, run
      after all filters, is a prefix of the final log. *)
Lemma processFilter_all_next_grows (cb : bool -> option exn -> M unit) (fl : list filter) :
    (forall b e, grows (cb b e)) ->
    forall fuel f s, Forall is_next (f :: fl) -> length fl < fuel -> filterList s = fl ->
    exists w, trace (processFilter fuel cb (Some f) s).1 =
      trace (cb false None (mkSt [] (index s)
               (trace s ++ map (fun g => EExecute (filter_id g)) (f :: fl)))).1 ++ w.
  Proof.
    intros Hcb. induction fl as [|g fl IH]; intros fuel f s Hn Hlen Hl;
      destruct fuel as [|fuel]; try (cbn in Hlen; lia);
      rewrite processFilter_Some_eq; apply Forall_cons in Hn as [Hf Hn];
      unfold is_next in Hf; rewrite Hf, Hl; cbn [run_actions head tail map].
    - unfold mbind, M_bind. rewrite processFilter_None.
      destruct (cb false None (mkSt [] (index s) (trace s ++ [EExecute (filter_id f)])))
        as [s1 [u|e]] eqn:E; cbn.
      + exists []. rewrite List.app_nil_r. reflexivity.
      + destruct (Hcb true (Some e) s1) as [t Ht]. exists t. exact Ht.
    - destruct (IH fuel g (mkSt fl (index s) (trace s ++ [EExecute (filter_id f)])) Hn
                  ltac:(cbn in Hlen; lia) eq_refl) as [w Hw].
      cbn [index trace] in Hw. rewrite <- app_assoc in Hw. cbn [app] in Hw.
      unfold mbind, M_bind.
      destruct (processFilter fuel cb (Some g) (mkSt fl (index s) (trace s ++ [EExecute (filter_id f)])))
        as [s1 [u|e]] eqn:E; cbn in Hw |- *.
      + exists w. exact Hw.
      + destruct (Hcb true (Some e) s1) as [t Ht]. exists (w ++ t).
        rewrite Ht, Hw, app_assoc. reflexivity.
  Qed.

Lemma processFilters_all_next_grows (fs : buckets) (cb : bool -> option exn -> M unit) s :
    (forall b e, grows (cb b e)) -> Forall is_next (flatten fs) ->
    exists w, trace (processFilters fs cb s).1 =
      trace (cb false None (mkSt [] (index s)
               (trace s ++ map (fun g => EExecute (filter_id g)) (flatten fs)))).1 ++ w.
  Proof.
    intros Hcb Hn. rewrite processFilters_eq.
    destruct (flatten fs) as [|f fl] eqn:Hfl; cbn [head tail].
    - rewrite processFilter_None. cbn [map]. rewrite List.app_nil_r.
      destruct (cb false None (mkSt [] (index s) (trace s))) as [s1 r]. exists [].
      rewrite List.app_nil_r. reflexivity.
    - destruct (processFilter_all_next_grows cb fl Hcb (S (length (f :: fl))) f
                  (mkSt fl (index s) (trace s)) Hn ltac:(cbn; lia) eq_refl) as [w Hw].
      destruct (processFilter (S (length (f :: fl))) cb (Some f) (mkSt fl (index s) (trace s)))
        as [s1 r]. exists w. exact Hw.
  Qed.

(** *** The first filter that does not call [next()] *)

  Section Reach.
Local Set Default Proof Using "All".
Variable ep : nat.
Variable handle : (info -> M unit) -> M unit.
Variable next : info -> M unit.
Hypothesis next_error : forall e s,
      next (InfoError e) s =
        (mkSt (filterList s) (index s) (trace s ++ [ENext ep (InfoError e)]), Exc e).
Hypothesis next_cancel : forall s,
      next InfoCancel s = emit (ENext ep InfoCancel) s.

Local Abbreviation cb := (dispatch_callback handle next).

Lemma cb_cancel s :
      cb true None s =
        (mkSt (filterList s) (index s) (trace s ++ [ENext ep InfoCancel]), Ok tt).
    Proof. unfold dispatch_callback. unfold_M. cbn. rewrite next_cancel. reflexivity. Qed.

Lemma cb_caught e s :
      cb true (Some e) s =
        if exn_truthy e
        then (mkSt (filterList s) (index s) (trace s ++ [ENext ep (InfoError e)]), Exc e)
        else (mkSt (filterList s) (index s) (trace s ++ [ENext ep InfoCancel]), Ok tt).
    Proof.
      unfold dispatch_callback. unfold_M. destruct (exn_truthy e); cbn.
      - rewrite next_error. reflexivity.
      - rewrite next_cancel. reflexivity.
    Qed.

Lemma run_stops nxt id k rest s :
      run_actions nxt (cb true None) id (replicate k AStop ++ rest) s =
      run_actions nxt (cb true None) id rest
        (mkSt (filterList s) (index s) (trace s ++ replicate k (ENext ep InfoCancel))).
    Proof.
      revert s. induction k as [|k IH]; intros s.
      - destruct s as [l i t]. cbn. rewrite List.app_nil_r. reflexivity.
      - cbn [replicate app run_actions]. unfold mbind, M_bind. rewrite cb_cancel.
        rewrite IH. cbn. rewrite <- app_assoc. reflexivity.
    Qed.

Lemma filter_stops fuel f k s :
      execute f = replicate k AStop ->
      processFilter (S fuel) cb (Some f) s =
        (mkSt (tail (filterList s)) (index s)
           (trace s ++ EExecute (filter_id f) :: replicate k (ENext ep InfoCancel)), Ok tt).
    Proof.
      intros Hf. rewrite processFilter_Some_eq, Hf.
      rewrite <- (List.app_nil_r (replicate k AStop)), run_stops. cbn.
      rewrite <- app_assoc. reflexivity.
    Qed.

Lemma filter_throws fuel f k a rest e s :
      execute f = replicate k AStop ++ a :: rest -> raised (filter_id f) a = Some e ->
      processFilter (S fuel) cb (Some f) s =
        if exn_truthy e
        then (mkSt (tail (filterList s)) (index s)
                (trace s ++ EExecute (filter_id f) :: replicate k (ENext ep InfoCancel) ++
                 [ENext ep (InfoError e)]), Exc e)
        else (mkSt (tail (filterList s)) (index s)
                (trace s ++ EExecute (filter_id f) :: replicate (S k) (ENext ep InfoCancel)),
              Ok tt).
    Proof.
      intros Hf Ha. rewrite processFilter_Some_eq, Hf, run_stops, (run_raise _ _ _ _ _ _ _ Ha).
      cbv iota beta. rewrite cb_caught. cbn [filterList index trace].
      rewrite replicate_S_end. destruct (exn_truthy e); rewrite <- !app_assoc; reflexivity.
    Qed.

  (** The filters before [f], which all call [next()], hand on what [f]'s
      own [processFilter] returns: a normal return as it is, ... *)
Lemma unwind_ok (pre post : list filter) (f : filter) (T : list event) :
      Forall is_next pre ->
      (forall fuel s, length post < fuel -> filterList s = post ->
         exists L, processFilter fuel cb (Some f) s = (mkSt L (index s) (trace s ++ T), Ok tt)) ->
      forall fuel s, length (pre ++ post) < fuel -> filterList s = tail (pre ++ f :: post) ->
      exists L, processFilter fuel cb (head (pre ++ f :: post)) s =
        (mkSt L (index s) (trace s ++ map (fun g => EExecute (filter_id g)) pre ++ T), Ok tt).
    Proof.
      intros Hpre Hf. induction Hpre as [|p pre Hp Hpre IH]; intros fuel s Hlen Hl.
      - exact (Hf fuel s Hlen Hl).
      - destruct fuel as [|fuel]; [cbn in Hlen; lia|].
        cbn [head tail app] in *. rewrite processFilter_Some_eq, Hl.
        unfold is_next in Hp. rewrite Hp. cbn [run_actions].
        destruct (IH fuel (mkSt (tail (pre ++ f :: post)) (index s)
                             (trace s ++ [EExecute (filter_id p)]))
                    ltac:(cbn in Hlen; lia) eq_refl) as [L HL].
        unfold mbind, M_bind. cbv beta. rewrite HL. cbn.
        exists L. rewrite <- app_assoc. reflexivity.
    Qed.

  (** ... and an exception by calling the callback with it again, which
      throws it again, once per filter. *)
Lemma unwind_exc (pre post : list filter) (f : filter) (T : list event) (e : exn) :
      exn_truthy e = true ->
      Forall is_next pre ->
      (forall fuel s, length post < fuel -> filterList s = post ->
         exists L, processFilter fuel cb (Some f) s = (mkSt L (index s) (trace s ++ T), Exc e)) ->
      forall fuel s, length (pre ++ post) < fuel -> filterList s = tail (pre ++ f :: post) ->
      exists L, processFilter fuel cb (head (pre ++ f :: post)) s =
        (mkSt L (index s) (trace s ++ map (fun g => EExecute (filter_id g)) pre ++ T ++
                           replicate (length pre) (ENext ep (InfoError e))), Exc e).
    Proof.
      intros He Hpre Hf. induction Hpre as [|p pre Hp Hpre IH]; intros fuel s Hlen Hl.
      - cbn. rewrite List.app_nil_r. exact (Hf fuel s Hlen Hl).
      - destruct fuel as [|fuel]; [cbn in Hlen; lia|].
        cbn [head tail app] in *. rewrite processFilter_Some_eq, Hl.
        unfold is_next in Hp. rewrite Hp. cbn [run_actions].
        destruct (IH fuel (mkSt (tail (pre ++ f :: post)) (index s)
                             (trace s ++ [EExecute (filter_id p)]))
                    ltac:(cbn in Hlen; lia) eq_refl) as [L HL].
        unfold mbind, M_bind. cbv beta. rewrite HL. cbv iota beta.
        rewrite cb_caught, He. cbn [filterList index trace length map].
        exists L. rewrite replicate_S_end. rewrite <- !app_assoc. reflexivity.
    Qed.

Lemma processFilters_stops fs pre f post k s :
      flatten fs = pre ++ f :: post -> Forall is_next pre -> execute f = replicate k AStop ->
      processFilters fs cb s =
        (mkSt (filterList s) (index s)
           (trace s ++ map (fun g => EExecute (filter_id g)) pre ++
            EExecute (filter_id f) :: replicate k (ENext ep InfoCancel)), Ok tt).
    Proof.
      intros Hfl Hpre Hf. rewrite processFilters_eq, Hfl.
      assert (Hf' : forall fuel s0, length post < fuel -> filterList s0 = post ->
                 exists L, processFilter fuel cb (Some f) s0 =
                   (mkSt L (index s0) (trace s0 ++ EExecute (filter_id f) ::
                                       replicate k (ENext ep InfoCancel)), Ok tt)).
      { intros [|fuel] s0 Hlen Hl; [lia|]. eexists. exact (filter_stops fuel f k s0 Hf). }
      destruct (unwind_ok pre post f _ Hpre Hf' (S (length (pre ++ f :: post)))
                  (mkSt (tail (pre ++ f :: post)) (index s) (trace s))
                  ltac:(rewrite !length_app; cbn; lia) eq_refl) as [L ->].
      reflexivity.
    Qed.

Lemma processFilters_throws fs pre f post k a rest e s :
      flatten fs = pre ++ f :: post -> Forall is_next pre ->
      execute f = replicate k AStop ++ a :: rest -> raised (filter_id f) a = Some e ->
      processFilters fs cb s =
        if exn_truthy e
        then (mkSt (filterList s) (index s)
                (trace s ++ map (fun g => EExecute (filter_id g)) pre ++
                 EExecute (filter_id f) :: replicate k (ENext ep InfoCancel) ++
                 replicate (S (length pre)) (ENext ep (InfoError e))), Exc e)
        else (mkSt (filterList s) (index s)
                (trace s ++ map (fun g => EExecute (filter_id g)) pre ++
                 EExecute (filter_id f) :: replicate (S k) (ENext ep InfoCancel)), Ok tt).
    Proof.
      intros Hfl Hpre Hf Ha. rewrite processFilters_eq, Hfl.
      destruct (exn_truthy e) eqn:He.
      - assert (Hf' : forall fuel s0, length post < fuel -> filterList s0 = post ->
                   exists L, processFilter fuel cb (Some f) s0 =
                     (mkSt L (index s0) (trace s0 ++ (EExecute (filter_id f) ::
                        replicate k (ENext ep InfoCancel) ++ [ENext ep (InfoError e)])), Exc e)).
        { intros [|fuel] s0 Hlen Hl; [lia|]. eexists.
          rewrite (filter_throws fuel f k a rest e s0 Hf Ha), He. reflexivity. }
        destruct (unwind_exc pre post f _ e He Hpre Hf' (S (length (pre ++ f :: post)))
                    (mkSt (tail (pre ++ f :: post)) (index s) (trace s))
                    ltac:(rewrite !length_app; cbn; lia) eq_refl) as [L ->].
        cbn [filterList index trace]. rewrite (replicate_S (length pre)).
        repeat (rewrite <- ?app_assoc; cbn [app]). reflexivity.
      - assert (Hf' : forall fuel s0, length post < fuel -> filterList s0 = post ->
                   exists L, processFilter fuel cb (Some f) s0 =
                     (mkSt L (index s0) (trace s0 ++ EExecute (filter_id f) ::
                        replicate (S k) (ENext ep InfoCancel)), Ok tt)).
        { intros [|fuel] s0 Hlen Hl; [lia|]. eexists.
          rewrite (filter_throws fuel f k a rest e s0 Hf Ha), He. reflexivity. }
        destruct (unwind_ok pre post f _ Hpre Hf' (S (length (pre ++ f :: post)))
                    (mkSt (tail (pre ++ f :: post)) (index s) (trace s))
                    ltac:(rewrite !length_app; cbn; lia) eq_refl) as [L ->].
        reflexivity.
    Qed.
  End Reach.






End DispatchFacts.

(** ** Data binding *)
Module BinderFacts.
  Import Binder.

Lemma foldl_bind_one (l : list (string * value)) : forall (host : obj) name,
    NoDup l.*1 ->
    foldl bind_one host l !! name =
      match host !! name, (list_to_map l : obj) !! name with
      | Some _, Some v => Some v
      | _, _ => host !! name
      end.
  Proof.
    induction l as [|[k v] l IH]; intros host name Hnd.
    - cbn. rewrite lookup_empty. destruct (host !! name); reflexivity.
    - cbn in Hnd |- *. apply NoDup_cons in Hnd as [Hk Hnd].
      rewrite IH by exact Hnd. unfold bind_one; cbn.
      assert (Hl : (list_to_map l : obj) !! k = None)
        by (apply not_elem_of_list_to_map_1; exact Hk).
      destruct (decide (name = k)) as [->|Hne].
      + rewrite lookup_insert_eq, Hl.
        destruct (host !! k) eqn:Hh; [rewrite lookup_insert_eq|rewrite Hh]; reflexivity.
      + rewrite (lookup_insert_ne _ k name v) by congruence.
        destruct (host !! k); [rewrite (lookup_insert_ne _ k name v) by congruence|];
          reflexivity.
  Qed.


End BinderFacts.

(** ** Controllers *)
Module ControllerFacts.
  Import Binder Controller.



End ControllerFacts.

(** ** Module registry *)
Module ModuleManagerFacts.
  Import ModuleManager.

Lemma init_count_snoc k s descs j hk :
    init_count k (mkSt descs (inits s ++ [(j, hk)])) =
      init_count k s + (if Nat.eqb j k then 1 else 0).
  Proof.
    unfold init_count; cbn. rewrite List.filter_app, length_app. cbn.
    destruct (Nat.eqb j k); reflexivity.
  Qed.

Lemma init_count_descs k s descs :
    init_count k (mkSt descs (inits s)) = init_count k s.
  Proof. reflexivity. Qed.

Lemma upd_throws path d : md_init_throws (upd path d) = md_init_throws d.
  Proof. unfold upd. destruct (cond path d && negb (md_init_throws d)); reflexivity. Qed.

Lemma upd_context path d : md_context (upd path d) = md_context d.
  Proof. unfold upd. destruct (cond path d && negb (md_init_throws d)); reflexivity. Qed.

Lemma upd_type path d : md_type (upd path d) = md_type d.
  Proof. unfold upd. destruct (cond path d && negb (md_init_throws d)); reflexivity. Qed.

  (** The loop of the front controller from position [j] on: the
      descriptions before the first throwing [init] it reaches are updated,
      and [init] is called once on each of them (and on the throwing one)
      whose test holds. *)
Lemma front_loop_spec (path : string) (l : list description) : forall s j,
    drop j (modulesDescriptions s) = l ->
    let s' := (front_loop path j l s).1 in
    length (modulesDescriptions s') = length (modulesDescriptions s) /\
    (forall k, modulesDescriptions s' !! k =
       if decide (j <= k) then
         (if forallb (passes path) (take (k - j) l) then upd path else id)
           <$> modulesDescriptions s !! k
       else modulesDescriptions s !! k) /\
    (forall k, init_count k s' = init_count k s +
       if decide (j <= k) then
         if forallb (passes path) (take (k - j) l) then
           match modulesDescriptions s !! k with
           | Some d => if cond path d then 1 else 0
           | None => 0
           end
         else 0
       else 0) /\
    (forall x, x ∈ inits s' -> x ∈ inits s \/ x.1 < length (modulesDescriptions s)).
  Proof.
    induction l as [|d l IH]; intros s j Hl; cbn.
    - assert (Hj : length (modulesDescriptions s) <= j).
      { pose proof (f_equal length Hl) as H. rewrite length_drop in H.
        cbn in H. lia. }
      split; [reflexivity|]. split; [|split].
      + intros k. rewrite take_nil. cbn. case_decide; [|reflexivity].
        rewrite lookup_ge_None_2 by lia. reflexivity.
      + intros k. rewrite take_nil. cbn. case_decide; [|lia].
        rewrite lookup_ge_None_2 by lia. lia.
      + intros x Hx. left. exact Hx.
    - assert (Hd : modulesDescriptions s !! j = Some d).
      { assert (H : drop j (modulesDescriptions s) !! 0 = Some d) by (rewrite Hl; reflexivity).
        rewrite lookup_drop, Nat.add_0_r in H. exact H. }
      assert (Hjl : j < length (modulesDescriptions s)) by (apply lookup_lt_is_Some; eauto).
      assert (Htake : forall k, j < k ->
                take (k - j) (d :: l) = d :: take (k - S j) l).
      { intros k Hk. replace (k - j) with (S (k - S j)) by lia. reflexivity. }
      assert (Hl1 : drop (S j) (modulesDescriptions s) = l).
      { replace (S j) with (j + 1) by lia. rewrite <- drop_drop, Hl. reflexivity. }
      destruct (String.prefix (md_context d) path && negb (md_initialized d)) eqn:Hc.
      + destruct (md_init_throws d) eqn:Ht.
        * (* [module.init] throws: the loop is left *)
          assert (Hpd : passes path d = false) by (unfold passes, cond; rewrite Hc, Ht; reflexivity).
          cbn [fst modulesDescriptions inits]. split; [reflexivity|]. split; [|split].
          -- intros k. destruct (decide (k = j)) as [->|Hne].
             ++ rewrite decide_True by lia. rewrite Nat.sub_diag. cbn.
                rewrite Hd. cbn. unfold upd, cond. rewrite Hc, Ht. reflexivity.
             ++ case_decide; [|reflexivity].
                rewrite Htake by lia. cbn [forallb]. rewrite Hpd. cbn [andb].
                destruct (modulesDescriptions s !! k); reflexivity.
          -- intros k. rewrite init_count_snoc.
             destruct (decide (k = j)) as [->|Hne].
             ++ rewrite Nat.eqb_refl. rewrite decide_True by lia. rewrite Nat.sub_diag. cbn.
                rewrite Hd. unfold cond. rewrite Hc. lia.
             ++ replace (Nat.eqb j k) with false by (symmetry; apply Nat.eqb_neq; congruence).
                case_decide; [|lia].
                rewrite Htake by lia. cbn [forallb]. rewrite Hpd. cbn [andb]. lia.
          -- intros x Hx. cbn in Hx. apply elem_of_app in Hx as [Hx|Hx]; [left; exact Hx|].
             right. apply list_elem_of_singleton in Hx. subst x. exact Hjl.
        * assert (Hpd : passes path d = true) by (unfold passes, cond; rewrite Hc, Ht; reflexivity).
          set (s1 := mkSt (<[j:=set_initialized d]> (modulesDescriptions s))
                          (inits s ++ [(j, HExpress)])).
          assert (Hl2 : drop (S j) (modulesDescriptions s1) = l).
          { cbn. rewrite drop_insert_lt by lia. exact Hl1. }
          specialize (IH s1 (S j) Hl2). cbv zeta in IH.
          destruct IH as (Hlen & Hlk & Hcnt & Hin). cbn in Hlen.
          rewrite length_insert in Hlen.
          split; [exact Hlen|]. split; [|split].
          -- intros k. rewrite Hlk. cbn.
             destruct (decide (k = j)) as [->|Hne].
             ++ rewrite decide_False by lia. rewrite decide_True by lia.
                rewrite list_lookup_insert_eq by lia. rewrite Nat.sub_diag, Hd. cbn.
                unfold upd, cond. rewrite Hc, Ht. reflexivity.
             ++ rewrite list_lookup_insert_ne by congruence.
                destruct (decide (S j <= k)); [|rewrite decide_False by lia; reflexivity].
                rewrite decide_True by lia. rewrite Htake by lia. cbn [forallb]. rewrite Hpd. reflexivity.
          -- intros k. rewrite Hcnt. unfold s1. rewrite init_count_snoc. cbn.
             destruct (decide (k = j)) as [->|Hne].
             ++ rewrite Nat.eqb_refl. rewrite decide_False by lia.
                rewrite decide_True by lia. rewrite Nat.sub_diag, Hd. cbn.
                unfold cond. rewrite Hc. lia.
             ++ rewrite list_lookup_insert_ne by congruence.
                replace (Nat.eqb j k) with false by (symmetry; apply Nat.eqb_neq; congruence).
                destruct (decide (S j <= k)); [|rewrite decide_False by lia; lia].
                rewrite decide_True by lia. rewrite Htake by lia. cbn [forallb]. rewrite Hpd. cbn [andb]. lia.
          -- intros x Hx. destruct (Hin x Hx) as [Hx1|Hx1].
             ++ unfold s1 in Hx1. cbn in Hx1. apply elem_of_app in Hx1 as [Hx1|Hx1]; [left; exact Hx1|].
                right. apply list_elem_of_singleton in Hx1. subst x. cbn. exact Hjl.
             ++ right. cbn in Hx1. rewrite length_insert in Hx1. exact Hx1.
      + assert (Hpd : passes path d = true) by (unfold passes, cond; rewrite Hc; reflexivity).
        specialize (IH s (S j) Hl1). cbv zeta in IH.
        destruct IH as (Hlen & Hlk & Hcnt & Hin).
        split; [exact Hlen|]. split; [|split; [|exact Hin]].
        * intros k. rewrite Hlk.
          destruct (decide (k = j)) as [->|Hne].
          -- rewrite decide_False by lia. rewrite decide_True by lia.
             rewrite Nat.sub_diag, Hd. cbn. unfold upd, cond. rewrite Hc. reflexivity.
          -- destruct (decide (S j <= k)); [|rewrite decide_False by lia; reflexivity].
             rewrite decide_True by lia. rewrite Htake by lia. cbn [forallb]. rewrite Hpd. reflexivity.
        * intros k. rewrite Hcnt.
          destruct (decide (k = j)) as [->|Hne].
          -- rewrite decide_False by lia. rewrite decide_True by lia.
             rewrite Nat.sub_diag, Hd. cbn. unfold cond. rewrite Hc. lia.
          -- destruct (decide (S j <= k)); [|rewrite decide_False by lia; lia].
             rewrite decide_True by lia. rewrite Htake by lia. cbn [forallb]. rewrite Hpd. reflexivity.
  Qed.

  (** One request: the description at position [k] is updated, and its
      [init] called when its test holds, exactly when the loop gets past
      every earlier description. *)
Lemma front_controller_spec (path : string) (s : st) :
    let s' := front_controller path s in
    let R k := forallb (passes path) (take k (modulesDescriptions s)) in
    length (modulesDescriptions s') = length (modulesDescriptions s) /\
    (forall k, modulesDescriptions s' !! k =
       (if R k then upd path else id) <$> modulesDescriptions s !! k) /\
    (forall k, init_count k s' = init_count k s +
       if R k then
         match modulesDescriptions s !! k with
         | Some d => if cond path d then 1 else 0
         | None => 0
         end
       else 0) /\
    (forall x, x ∈ inits s' -> x ∈ inits s \/ x.1 < length (modulesDescriptions s)).
  Proof.
    unfold front_controller.
    pose proof (front_loop_spec path (modulesDescriptions s) s 0 (drop_0 _)) as H.
    cbv zeta in H |- *. destruct H as (Hlen & Hlk & Hcnt & Hin).
    split; [exact Hlen|]. split; [|split; [|exact Hin]].
    - intros k. rewrite Hlk. rewrite decide_True by lia. rewrite Nat.sub_0_r. reflexivity.
    - intros k. rewrite Hcnt. rewrite decide_True by lia. rewrite Nat.sub_0_r. reflexivity.
  Qed.

Lemma reached_all path ds k :
    (forall j d', j < k -> ds !! j = Some d' -> md_init_throws d' = false) ->
    forallb (passes path) (take k ds) = true.
  Proof.
    intros H. apply forallb_forall. intros x Hx.
    apply list_elem_of_In, list_elem_of_lookup in Hx as [i Hi].
    apply lookup_take_Some in Hi as [Hi Hik].
    unfold passes. rewrite (H i x Hik Hi), andb_false_r. reflexivity.
  Qed.

Lemma mm_run_snoc evs e : run (evs ++ [e]) = step (run evs) e.
  Proof. unfold run. rewrite foldl_app. reflexivity. Qed.

Lemma registered_app a b : registered (a ++ b) = registered a + registered b.
  Proof. unfold registered. rewrite List.filter_app, length_app. reflexivity. Qed.

Lemma match_count_from_app n k ctx a b :
    match_count_from n k ctx (a ++ b) =
      match_count_from n k ctx a + match_count_from (n + registered a) k ctx b.
  Proof.
    revert n. induction a as [|e a IH]; intros n; cbn.
    - rewrite Nat.add_0_r. reflexivity.
    - destruct e as [ctx' ty th|p]; cbn.
      + rewrite IH. unfold registered. cbn. rewrite Nat.add_succ_r. reflexivity.
      + rewrite IH. unfold registered. cbn. lia.
  Qed.

Lemma match_count_snoc evs e k ctx :
    match_count (evs ++ [e]) k ctx = match_count evs k ctx +
      match e with
      | Request p => if Nat.ltb k (registered evs) && String.prefix ctx p then 1 else 0
      | Register _ _ _ => 0
      end.
  Proof.
    unfold match_count. rewrite match_count_from_app. cbn.
    destruct e; cbn; lia.
  Qed.

Lemma match_count_none n k ctx evs :
    n + registered evs <= k -> match_count_from n k ctx evs = 0.
  Proof.
    revert n. induction evs as [|e evs IH]; intros n Hn; [reflexivity|].
    destruct e as [ctx' ty th|p]; cbn [match_count_from].
    - apply IH. unfold registered in *. cbn in Hn. lia.
    - rewrite IH by (unfold registered in *; cbn in Hn; lia).
      replace (Nat.ltb k n) with false by (symmetry; apply Nat.ltb_ge; lia). reflexivity.
  Qed.

Lemma matched_snoc evs e k ctx :
    matched (evs ++ [e]) k ctx <->
    matched evs k ctx \/
    (exists p, e = Request p /\ k < registered evs /\ String.prefix ctx p = true).
  Proof.
    split.
    - intros (pre & p & post & Heq & Hk & Hp).
      induction post as [|x post' _] using rev_ind.
      + apply app_inj_tail in Heq as [-> ->]. right. eauto.
      + rewrite app_comm_cons, app_assoc in Heq. apply app_inj_tail in Heq as [-> ->].
        left. exists pre, p, post'. auto.
    - intros [(pre & p & post & -> & Hk & Hp)|(p & -> & Hk & Hp)].
      + exists pre, p, (post ++ [e]). rewrite <- app_assoc. auto.
      + exists evs, p, []. auto.
  Qed.

Lemma matched_none evs k ctx : registered evs <= k -> ~ matched evs k ctx.
  Proof.
    intros Hk (pre & p & post & Heq & Hlt & _).
    assert (registered pre <= registered evs) by (rewrite Heq, registered_app; lia).
    lia.
  Qed.

Lemma init_count_absent k s :
    (forall x, x ∈ inits s -> x.1 <> k) -> init_count k s = 0.
  Proof.
    unfold init_count. destruct s as [descs l]; cbn.
    induction l as [|x l IH]; intros H; [reflexivity|].
    cbn. replace (Nat.eqb x.1 k) with false.
    - apply IH. intros y Hy. apply H. apply list_elem_of_further. exact Hy.
    - symmetry. apply Nat.eqb_neq. apply H. apply list_elem_of_here.
  Qed.

Lemma upd_eager path d : eager_inits (upd path d) = eager_inits d.
  Proof. unfold eager_inits. rewrite upd_type. reflexivity. Qed.

Lemma upd_initialized path d :
    md_initialized (upd path d) =
      (cond path d && negb (md_init_throws d)) || md_initialized d.
  Proof. unfold upd. destruct (cond path d && negb (md_init_throws d)); reflexivity. Qed.

  (** The invariant of the manager over any sequence of registrations and
      requests, for the module at position [k]. *)
Lemma run_inv (evs : list ev) :
    let s := run evs in
    length (modulesDescriptions s) = registered evs /\
    (forall x, x ∈ inits s -> x.1 < length (modulesDescriptions s)) /\
    (forall k d, modulesDescriptions s !! k = Some d ->
       eager_inits d <= init_count k s /\
       (md_init_throws d = true -> md_initialized d = false) /\
       (md_init_throws d = false ->
          init_count k s = eager_inits d + (if md_initialized d then 1 else 0)) /\
       init_count k s <= eager_inits d + match_count evs k (md_context d) /\
       (md_initialized d = true -> matched evs k (md_context d)) /\
       ((forall j d', j < k -> modulesDescriptions s !! j = Some d' ->
           md_init_throws d' = false) ->
        (md_init_throws d = false ->
           (md_initialized d = true <-> matched evs k (md_context d))) /\
        (md_init_throws d = true ->
           init_count k s = eager_inits d + match_count evs k (md_context d)))).
  Proof.
    induction evs as [|e evs IH] using rev_ind.
    - cbn. split; [reflexivity|]. split.
      + intros x Hx. apply not_elem_of_nil in Hx as [].
      + intros k d Hd. rewrite lookup_nil in Hd. discriminate.
    - cbv zeta in IH |- *. destruct IH as (Hlen & Hb & Hk).
      rewrite mm_run_snoc, registered_app.
      destruct e as [ctx ty th|p]; cbn [step].
      + assert (Hreg : registered [Register ctx ty th] = 1) by reflexivity.
        rewrite Hreg.
        assert (Hdesc : modulesDescriptions (configureModule ctx ty th (run evs)) =
                  modulesDescriptions (run evs) ++ [mkDesc ctx ty th false])
          by (unfold configureModule; destruct (server_type_eqb ty WEB_SOCKET); reflexivity).
        assert (Hinit : forall k,
                  init_count k (configureModule ctx ty th (run evs)) =
                  init_count k (run evs) +
                  if server_type_eqb ty WEB_SOCKET
                  then (if Nat.eqb (length (modulesDescriptions (run evs))) k then 1 else 0)
                  else 0).
        { intros k. unfold configureModule.
          destruct (server_type_eqb ty WEB_SOCKET);
            [rewrite init_count_snoc | rewrite init_count_descs]; lia. }
        assert (Hin : forall x, x ∈ inits (configureModule ctx ty th (run evs)) ->
                  x ∈ inits (run evs) \/ x.1 = length (modulesDescriptions (run evs))).
        { intros x Hx. unfold configureModule in Hx.
          destruct (server_type_eqb ty WEB_SOCKET); cbn in Hx; [|left; exact Hx].
          apply elem_of_app in Hx as [Hx|Hx]; [left; exact Hx|].
          apply list_elem_of_singleton in Hx. subst x. right. reflexivity. }
        rewrite Hdesc, length_app. cbn [length]. split; [lia|]. split.
        * intros x Hx. destruct (Hin x Hx) as [Hx'|Hx']; [specialize (Hb x Hx')|]; lia.
        * intros k d Hd. rewrite matched_snoc, match_count_snoc, Hinit, Nat.add_0_r.
          destruct (decide (k < length (modulesDescriptions (run evs)))) as [Hlt|Hge].
          -- rewrite lookup_app_l in Hd by exact Hlt.
             destruct (Hk k d Hd) as (H0 & H1 & H2 & H3 & H4 & H5).
             replace (Nat.eqb (length (modulesDescriptions (run evs))) k) with false
               by (symmetry; apply Nat.eqb_neq; lia).
             assert (Hm : matched evs k (md_context d) \/
                       (exists p, Register ctx ty th = Request p /\ k < registered evs /\
                                  String.prefix (md_context d) p = true) <->
                       matched evs k (md_context d))
               by (split; [intros [H|(p & Hp & _)]; [exact H | discriminate] | intros H; left; exact H]).
             rewrite Hm.
             assert (Hc : forall n, n + (if server_type_eqb ty WEB_SOCKET then 0 else 0) = n)
               by (intros n; destruct (server_type_eqb ty WEB_SOCKET); lia).
             rewrite Hc.
             split; [lia|]. split; [exact H1|]. split; [exact H2|]. split; [exact H3|]. split; [exact H4|].
             intros He. apply H5. intros j d' Hj Hd'. apply (He j d' Hj).
             rewrite lookup_app_l by lia. exact Hd'.
          -- rewrite lookup_app_r in Hd by lia.
             apply list_lookup_singleton_Some in Hd as [Hk0 <-].
             assert (k = length (modulesDescriptions (run evs))) as -> by lia.
             rewrite Nat.eqb_refl.
             rewrite init_count_absent
               by (intros x Hx Heq; specialize (Hb x Hx); lia).
             unfold match_count. rewrite match_count_none by lia.
             unfold eager_inits. cbn [md_type md_initialized md_context md_init_throws].
             assert (Hnm : ~ matched evs (length (modulesDescriptions (run evs))) ctx)
               by (apply matched_none; lia).
             split; [destruct (server_type_eqb ty WEB_SOCKET); lia|].
             split; [reflexivity|]. split; [intros _; destruct (server_type_eqb ty WEB_SOCKET); lia|].
             split; [destruct (server_type_eqb ty WEB_SOCKET); lia|].
             split; [discriminate|].
             intros _. split.
             ++ intros _. split; [discriminate|].
                intros [H|(p & Hp & _)]; [contradiction | discriminate].
             ++ intros _. destruct (server_type_eqb ty WEB_SOCKET); lia.
      + assert (Hreg : registered [Request p] = 0) by reflexivity.
        rewrite Hreg, Nat.add_0_r.
        destruct (front_controller_spec p (run evs)) as (Hlen' & Hlk & Hcnt & Hin).
        rewrite Hlen'. split; [exact Hlen|]. split.
        * intros x Hx. destruct (Hin x Hx) as [Hx'|Hx']; [apply Hb|]; exact Hx' || lia.
        * intros k d Hd. rewrite Hlk in Hd.
          destruct (modulesDescriptions (run evs) !! k) as [d0|] eqn:Hd0; [|discriminate].
          cbn in Hd. injection Hd as <-.
          assert (Hlt : k < registered evs)
            by (rewrite <- Hlen; apply lookup_lt_is_Some; eauto).
          destruct (Hk k d0 Hd0) as (H0 & H1 & H2 & H3 & H4 & H5).
          assert (He : (forall j d', j < k ->
                          modulesDescriptions (front_controller p (run evs)) !! j = Some d' ->
                          md_init_throws d' = false) ->
                       (forall j d', j < k -> modulesDescriptions (run evs) !! j = Some d' ->
                          md_init_throws d' = false)).
          { intros H j d' Hj Hd'.
            specialize (H j ((if forallb (passes p) (take j (modulesDescriptions (run evs)))
                              then upd p else id) d') Hj).
            rewrite Hlk, Hd' in H. specialize (H eq_refl).
            destruct (forallb (passes p) (take j (modulesDescriptions (run evs)))); cbn in H;
              rewrite ?upd_throws in H; exact H. }
          assert (HR : (forall j d', j < k -> modulesDescriptions (run evs) !! j = Some d' ->
                          md_init_throws d' = false) ->
                       forallb (passes p) (take k (modulesDescriptions (run evs))) = true)
            by apply reached_all.
          rewrite Hcnt, Hd0, matched_snoc, match_count_snoc.
          assert (Hm : forall M : Prop,
                    M \/ (exists p', Request p = Request p' /\ k < registered evs /\
                                     String.prefix (md_context d0) p' = true) <->
                    M \/ String.prefix (md_context d0) p = true).
          { intros M. split.
            - intros [H|(p' & Hp' & _ & H)]; [left; exact H|]. injection Hp' as <-. right. exact H.
            - intros [H|H]; [left; exact H|]. right. eauto. }
          replace (Nat.ltb k (registered evs)) with true by (symmetry; apply Nat.ltb_lt; exact Hlt).
          cbn [andb].
          refine (conj _ (conj _ (conj _ (conj _ (conj _ _)))));
            [ | | | | | intros HE'; pose proof (He HE') as HE; specialize (H5 HE);
                      rewrite (HR HE) ];
            [destruct (forallb (passes p) (take k (modulesDescriptions (run evs)))) .. |];
            cbn [id]; rewrite ?upd_throws, ?upd_context, ?upd_eager, ?upd_initialized;
            rewrite ?Hm; unfold cond;
            revert H4 H5; generalize (matched evs k (md_context d0)); intros M H4 H5;
            destruct (String.prefix (md_context d0) p), (md_initialized d0), (md_init_throws d0);
            cbn [andb orb negb] in *;
            intuition (try discriminate; try lia).
  Qed.

Lemma run_persist evs more k d :
    modulesDescriptions (run evs) !! k = Some d ->
    exists d', modulesDescriptions (run (evs ++ more)) !! k = Some d' /\
               (md_initialized d = true -> md_initialized d' = true).
  Proof.
    intros Hd. induction more as [|e more IH] using rev_ind.
    - rewrite app_nil_r. eauto.
    - destruct IH as (d1 & H1 & Hi1). rewrite app_assoc, mm_run_snoc.
      destruct e as [ctx ty th|p]; cbn [step].
      + exists d1. split; [|exact Hi1].
        assert (Hdesc : modulesDescriptions (configureModule ctx ty th (run (evs ++ more))) =
                  modulesDescriptions (run (evs ++ more)) ++ [mkDesc ctx ty th false])
          by (unfold configureModule; destruct (server_type_eqb ty WEB_SOCKET); reflexivity).
        rewrite Hdesc, lookup_app_l; [exact H1|].
        apply lookup_lt_is_Some. eauto.
      + destruct (front_controller_spec p (run (evs ++ more))) as (_ & Hlk & _).
        rewrite Hlk, H1. cbn.
        eexists. split; [reflexivity|].
        intros Hi. destruct (forallb _ _); cbn; [|exact (Hi1 Hi)].
        rewrite upd_initialized, (Hi1 Hi). apply orb_true_r.
  Qed.




End ModuleManagerFacts.

Module RouteFacts.
  Import Controller Route.

Lemma prefix_app_self (ctx rest : string) :
    String.prefix ctx (String.append ctx rest) = true.
  Proof.
    induction ctx as [|c ctx IH]; simpl; [destruct rest; reflexivity|].
    destruct (Ascii.ascii_dec c c) as [_|n]; [exact IH | congruence].
  Qed.

Lemma substring_all (s : string) : String.substring 0 (String.length s) s = s.
  Proof. induction s as [|c s IH]; simpl; [reflexivity | f_equal; exact IH]. Qed.

Lemma substring_after (ctx rest : string) :
    String.substring (String.length ctx) (String.length rest) (String.append ctx rest) = rest.
  Proof. induction ctx as [|c ctx IH]; simpl; [apply substring_all | exact IH]. Qed.

Lemma length_append (a b : string) :
    String.length (String.append a b) = String.length a + String.length b.
  Proof. induction a as [|c a IH]; simpl; [reflexivity | f_equal; exact IH]. Qed.

  (** Removing the module's context path from a pathname that starts with it
      leaves the rest of the pathname. *)
Lemma js_replace_first_eq (s pat rep : string) :
    js_replace_first s pat rep =
      if String.prefix pat s
      then String.append rep (String.substring (String.length pat)
                                 (String.length s - String.length pat) s)
      else match s with
           | EmptyString => s
           | String c s' => String c (js_replace_first s' pat rep)
           end.
  Proof. destruct s; reflexivity. Qed.

  (** Removing the module's context path from a pathname that starts with it
      leaves the rest of the pathname. *)
Lemma replace_context_prefix (ctx rest : string) :
    js_replace_first (String.append ctx rest) ctx "" = rest.
  Proof.
    rewrite js_replace_first_eq, prefix_app_self, length_append.
    replace (String.length ctx + String.length rest - String.length ctx)
      with (String.length rest) by lia.
    rewrite substring_after. reflexivity.
  Qed.

  (** C6. A route registered with path [p] is stored with the anchored
      pattern [^p$], and for a request whose pathname is the module's context
      path [ctx] followed by [rest] (the only requests a module dispatches),
      the endpoint validates the request exactly when the regular-expression
      test of that pattern accepts [rest], or ["/"] when [rest] is empty. *)
Theorem route_validate_anchored (regex_test : string -> string -> bool)
    (p ctx rest : string) :
    pattern_of p = String.append "^" (String.append p "$") /\
    validate regex_test p (String.append ctx rest) ctx =
      regex_test (pattern_of p) (if String.eqb rest "" then "/" else rest).
  Proof.
    split; [reflexivity|].
    unfold validate. rewrite replace_context_prefix. reflexivity.
  Qed.

End RouteFacts.

(** ** Filter order *)
Module FiltersFacts.
  Import Dispatch Filters.

Lemma js_set_lookup_eq {A} (l : list (option A)) i x : js_set l i x !! i = Some x.
  Proof.
    unfold js_set. destruct (decide (i < length l)).
    - apply list_lookup_insert_eq. exact l0.
    - rewrite lookup_app_r by lia. rewrite lookup_app_r by (rewrite length_replicate; lia).
      rewrite length_replicate. replace (i - length l - (i - length l)) with 0 by lia.
      reflexivity.
  Qed.

Lemma js_set_lookup_ne {A} (l : list (option A)) i x n :
    n < length l -> n <> i -> js_set l i x !! n = l !! n.
  Proof.
    intros Hn Hne. unfold js_set. destruct (decide (i < length l)).
    - apply list_lookup_insert_ne. congruence.
    - apply lookup_app_l. exact Hn.
  Qed.

  (** [filter(f, order)] appends [f] to the bucket at [order], or at the end
      of the bucket array when [order] is [undefined]. *)
Lemma add_filter_appends fs h o :
    let idx := match o with Some a => a | None => length fs end in
    exists l, add_filter fs h o !! idx = Some (Some (l ++ [h])) /\
              (forall l0, fs !! idx = Some (Some l0) -> l = l0).
  Proof.
    unfold add_filter. cbv zeta.
    set (idx := match o with Some a => a | None => length fs end).
    destruct (fs !! idx) as [[l0|]|] eqn:Hfs.
    - rewrite Hfs. exists l0. split; [|congruence].
      apply list_lookup_insert_eq. apply lookup_lt_is_Some. eauto.
    - rewrite js_set_lookup_eq. exists []. split; [|congruence].
      apply list_lookup_insert_eq. apply lookup_lt_is_Some.
      rewrite js_set_lookup_eq. eauto.
    - rewrite js_set_lookup_eq. exists []. split; [|congruence].
      apply list_lookup_insert_eq. apply lookup_lt_is_Some.
      rewrite js_set_lookup_eq. eauto.
  Qed.

  (** An existing bucket only grows at its end. *)
Lemma add_filter_mono fs h o n l :
    fs !! n = Some (Some l) ->
    exists e, add_filter fs h o !! n = Some (Some (l ++ e)).
  Proof.
    intros Hn. unfold add_filter. cbv zeta.
    set (idx := match o with Some a => a | None => length fs end).
    set (fs1 := match fs !! idx with
                | Some (Some _) => fs
                | _ => js_set fs idx (Some [])
                end).
    assert (H1 : fs1 !! n = Some (Some l)).
    { unfold fs1. destruct (fs !! idx) as [[l0|]|] eqn:Hfs; [exact Hn| |];
        (rewrite js_set_lookup_ne; [exact Hn | apply lookup_lt_is_Some; eauto | congruence]). }
    destruct (fs1 !! idx) as [[l1|]|] eqn:Hfs1; [| exists []; rewrite app_nil_r; exact H1
                                                 | exists []; rewrite app_nil_r; exact H1].
    destruct (decide (n = idx)) as [->|Hne].
    - rewrite H1 in Hfs1. injection Hfs1 as ->. exists [h].
      apply list_lookup_insert_eq. apply lookup_lt_is_Some. eauto.
    - exists []. rewrite app_nil_r, list_lookup_insert_ne by congruence. exact H1.
  Qed.

Lemma foldl_mono more : forall fs n l,
    fs !! n = Some (Some l) ->
    exists e, foldl step_reg fs more !! n = Some (Some (l ++ e)).
  Proof.
    induction more as [|r more IH]; intros fs n l Hn; cbn.
    - exists []. rewrite app_nil_r. exact Hn.
    - destruct (add_filter_mono fs r.1 r.2 n l Hn) as (e1 & H1).
      destruct (IH _ _ _ H1) as (e2 & H2). exists (e1 ++ e2).
      rewrite app_assoc. exact H2.
  Qed.

Lemma flatten_concat fs : flatten fs = concat (map (default []) fs).
  Proof.
    unfold flatten.
    assert (H : forall acc, foldl (fun acc b => match b with Some l => acc ++ l | None => acc end)
                              acc fs = acc ++ concat (map (default []) fs)).
    { induction fs as [|b fs IH]; intros acc; cbn; [rewrite app_nil_r; reflexivity|].
      rewrite IH. destruct b; cbn; [rewrite app_assoc; reflexivity | reflexivity]. }
    apply H.
  Qed.

Lemma flatten_split fs a b la lb :
    a < b -> fs !! a = Some (Some la) -> fs !! b = Some (Some lb) ->
    exists P Q R, flatten fs = P ++ la ++ Q ++ lb ++ R.
  Proof.
    intros Hab Ha Hb. rewrite flatten_concat.
    rewrite <- (take_drop_middle fs a _ Ha).
    assert (Hb' : drop (S a) fs !! (b - S a) = Some (Some lb))
      by (rewrite lookup_drop; replace (S a + (b - S a)) with b by lia; exact Hb).
    rewrite <- (take_drop_middle _ _ _ Hb').
    rewrite !map_app, !concat_app. cbn [map concat].
    rewrite !map_app, !concat_app. cbn [map concat default from_option id].
    eexists _, _, _. reflexivity.
  Qed.

Lemma flatten_in fs a la :
    fs !! a = Some (Some la) -> exists P R, flatten fs = P ++ la ++ R.
  Proof.
    intros Ha. rewrite flatten_concat, <- (take_drop_middle fs a _ Ha).
    rewrite map_app, concat_app. cbn [map concat default from_option id].
    eexists _, _. reflexivity.
  Qed.

Lemma register_all_split regs i r :
    regs !! i = Some r ->
    register_all regs =
      foldl step_reg (add_filter (foldl step_reg [] (take i regs)) r.1 r.2) (drop (S i) regs).
  Proof.
    intros Hi. unfold register_all.
    rewrite <- (take_drop_middle regs i r Hi) at 1.
    rewrite foldl_app. reflexivity.
  Qed.

  (** After the [i]-th registration, with order [a], the bucket at [a] ends
      with the [i]-th filter, and keeps it for all later registrations. *)
Lemma registered_in_bucket regs i h a :
    regs !! i = Some (h, Some a) ->
    exists X Y, register_all regs !! a = Some (Some (X ++ h :: Y)).
  Proof.
    intros Hi. rewrite (register_all_split _ _ _ Hi). cbn [fst snd].
    destruct (add_filter_appends (foldl step_reg [] (take i regs)) h (Some a))
      as (l & Hl & _).
    destruct (foldl_mono (drop (S i) regs) _ _ _ Hl) as (e & He).
    exists l, e. rewrite He, <- app_assoc. reflexivity.
  Qed.

  (** C10. Filter order.  [filter(f, order)] appends [f] to the bucket at
      index [order] (at the end of the bucket array when [order] is
      [undefined]).  Of two registrations with explicit orders, the filter
      with the lower order, or with the same order and registered earlier,
      comes first in the flattened list that [processFilters] executes. *)
Theorem filters_execute_in_order (regs : list (filter * option nat))
    (i j : nat) (f g : filter) (a b : nat)
    (Hi : regs !! i = Some (f, Some a)) (Hj : regs !! j = Some (g, Some b))
    (Hord : a < b \/ (a = b /\ i < j)) :
    (forall fs h o,
       let idx := match o with Some a => a | None => length fs end in
       exists l, add_filter fs h o !! idx = Some (Some (l ++ [h])) /\
                 (forall l0, fs !! idx = Some (Some l0) -> l = l0)) /\
    exists l1 l2 l3, flatten (register_all regs) = l1 ++ f :: l2 ++ g :: l3.
  Proof.
    split; [exact add_filter_appends|].
    destruct Hord as [Hlt|[<- Hlt]].
    - destruct (registered_in_bucket _ _ _ _ Hi) as (X1 & Y1 & H1).
      destruct (registered_in_bucket _ _ _ _ Hj) as (X2 & Y2 & H2).
      destruct (flatten_split _ _ _ _ _ Hlt H1 H2) as (P & Q & R & ->).
      exists (P ++ X1), (Y1 ++ Q ++ X2), (Y2 ++ R).
      rewrite <- ?app_assoc. cbn [app]. rewrite <- ?app_assoc. reflexivity.
    - rewrite (register_all_split _ _ _ Hj). cbn [fst snd].
      assert (Hi' : take j regs !! i = Some (f, Some a))
        by (rewrite lookup_take, decide_True by lia; exact Hi).
      destruct (registered_in_bucket _ _ _ _ Hi') as (X & Y & HX).
      unfold register_all in HX.
      destruct (add_filter_appends (foldl step_reg [] (take j regs)) g (Some a))
        as (l & Hl & Hl0).
      rewrite (Hl0 _ HX) in Hl.
      destruct (foldl_mono (drop (S j) regs) _ _ _ Hl) as (e & He).
      destruct (flatten_in _ _ _ He) as (P & R & ->).
      exists (P ++ X), Y, (e ++ R).
      rewrite <- ?app_assoc. cbn [app]. rewrite <- ?app_assoc. reflexivity.
  Qed.

Lemma filters_execute_in_order_witness :
    [(mkFilter 1 [ANext], Some 1); (mkFilter 2 [ANext], Some 0);
     (mkFilter 3 [ANext], Some 1)] !! 0 = Some (mkFilter 1 [ANext], Some 1) /\
    [(mkFilter 1 [ANext], Some 1); (mkFilter 2 [ANext], Some 0);
     (mkFilter 3 [ANext], Some 1)] !! 2 = Some (mkFilter 3 [ANext], Some 1) /\
    (1 < 1 \/ (1 = 1 /\ 0 < 2)) /\
    ((forall fs h o,
       let idx := match o with Some a => a | None => length fs end in
       exists l, add_filter fs h o !! idx = Some (Some (l ++ [h])) /\
                 (forall l0, fs !! idx = Some (Some l0) -> l = l0)) /\
     exists l1 l2 l3,
       flatten (register_all [(mkFilter 1 [ANext], Some 1); (mkFilter 2 [ANext], Some 0);
                              (mkFilter 3 [ANext], Some 1)]) =
       l1 ++ mkFilter 1 [ANext] :: l2 ++ mkFilter 3 [ANext] :: l3).
  Proof.
    split; [reflexivity|]. split; [reflexivity|]. split; [lia|].
    apply (filters_execute_in_order _ 0 2 _ _ 1 1); [reflexivity | reflexivity | lia].
  Defined.

End FiltersFacts.

Module StringFacts.
  Import JsString.

Lemma sapp_cons (c : Ascii.ascii) (a b : string) :
    String.append (String c a) b = String c (String.append a b).
  Proof. reflexivity. Qed.

Lemma sapp_nil_l (b : string) : String.append "" b = b.
  Proof. reflexivity. Qed.

Lemma sapp_assoc (a b c : string) :
    String.append (String.append a b) c = String.append a (String.append b c).
  Proof. induction a as [|x a IH]; [reflexivity|]. rewrite !sapp_cons, IH. reflexivity. Qed.

Lemma sapp_nil_r (a : string) : String.append a "" = a.
  Proof. induction a as [|x a IH]; [reflexivity|]. rewrite sapp_cons, IH. reflexivity. Qed.

Lemma slength_app (a b : string) :
    String.length (String.append a b) = String.length a + String.length b.
  Proof. induction a as [|c a IH]; [reflexivity|]. rewrite sapp_cons. simpl. f_equal. exact IH. Qed.

Lemma substring_0_all (s : string) : String.substring 0 (String.length s) s = s.
  Proof. induction s as [|c s IH]; simpl; [reflexivity | f_equal; exact IH]. Qed.

Lemma substring_app_r (a b : string) :
    String.substring (String.length a) (String.length b) (String.append a b) = b.
  Proof. induction a as [|c a IH]; simpl; [apply substring_0_all | exact IH]. Qed.

Lemma substring_0_long (s : string) (m : nat) :
    String.length s <= m -> String.substring 0 m s = s.
  Proof.
    revert m. induction s as [|c s IH]; intros m Hm; destruct m as [|m]; simpl in *;
      try reflexivity; try lia.
    f_equal. apply IH. lia.
  Qed.

Lemma substring_split (s : string) (k : nat) :
    k <= String.length s ->
    String.append (String.substring 0 k s) (String.substring k (String.length s - k) s) = s.
  Proof.
    revert k. induction s as [|c s IH]; intros k Hk; destruct k as [|k]; simpl in *;
      try lia.
    - reflexivity.
    - rewrite sapp_nil_l. f_equal. apply substring_0_all.
    - rewrite sapp_cons. f_equal. apply IH. lia.
  Qed.

Lemma substr_from_app (a b : string) :
    substr_from (String.length a) (String.append a b) = b.
  Proof.
    unfold substr_from. rewrite slength_app.
    replace (String.length a + String.length b - String.length a) with (String.length b) by lia.
    apply substring_app_r.
  Qed.

Lemma substr_from_0 (s : string) : substr_from 0 s = s.
  Proof. unfold substr_from. rewrite Nat.sub_0_r. apply substring_0_all. Qed.

  (** [s.substr(-e.length) === e] tests whether [s] ends with [e]. *)
Lemma substr_last_suffix (s e : string) :
    e <> "" ->
    (substr_last (String.length e) s = e <-> exists p, s = String.append p e).
  Proof.
    intros He. unfold substr_last.
    destruct (Nat.eqb (String.length e) 0) eqn:E0.
    { apply Nat.eqb_eq in E0. destruct e; [congruence | discriminate]. }
    split.
    - intros Hs. destruct (decide (String.length e <= String.length s)) as [Hle|Hgt].
      + exists (String.substring 0 (String.length s - String.length e) s).
        pose proof (substring_split s (String.length s - String.length e) ltac:(lia)) as Hsp.
        replace (String.length s - (String.length s - String.length e))
          with (String.length e) in Hsp by lia.
        rewrite Hs in Hsp. symmetry. exact Hsp.
      + exists "". cbn. rewrite <- Hs.
        replace (String.length s - String.length e) with 0 by lia.
        symmetry. apply substring_0_long. lia.
    - intros [p ->]. rewrite slength_app.
      replace (String.length p + String.length e - String.length e) with (String.length p) by lia.
      apply substring_app_r.
  Qed.

Lemma prefix_nil (s : string) : String.prefix "" s = true.
  Proof. destruct s; reflexivity. Qed.

Lemma index_cons (pat : string) (c : Ascii.ascii) (s : string) :
    String.index 0 pat (String c s) =
      if String.prefix pat (String c s) then Some 0
      else option_map S (String.index 0 pat s).
  Proof. reflexivity. Qed.

Lemma index_app_none (x y pat : string) :
    String.index 0 pat (String.append x y) = None -> String.index 0 pat y = None.
  Proof.
    induction x as [|c x IH]; [auto|]. rewrite sapp_cons, index_cons.
    destruct (String.prefix pat (String c (String.append x y))); [discriminate|].
    destruct (String.index 0 pat (String.append x y)); [discriminate | auto].
  Qed.

  (** [indexOf(s, "/") === 0] tests whether [s] starts with a slash. *)
Lemma indexOf_zero (s pat : string) :
    pat <> "" -> (indexOf s pat = 0%Z <-> String.prefix pat s = true).
  Proof.
    intros Hp. unfold indexOf. destruct s as [|c s].
    - destruct pat; [congruence|]. simpl. split; discriminate.
    - rewrite index_cons. destruct (String.prefix pat (String c s)); [split; reflexivity|].
      destruct (String.index 0 pat s); split; try discriminate; lia.
  Qed.

Lemma prefix_slash (u : string) :
    String.prefix "/" u = true <-> exists q, u = String.append "/" q.
  Proof.
    destruct u as [|c u]; cbn [String.prefix]; [split; [discriminate | intros [q Hq]; discriminate]|].
    destruct (Ascii.ascii_dec "/"%char c) as [<-|Hne]; split.
    - intros _. exists u. reflexivity.
    - intros _. destruct u; reflexivity.
    - discriminate.
    - intros [q Hq]. injection Hq as Hq _. congruence.
  Qed.

Lemma substr_first_slash (u : string) :
    String.eqb (substr_first 1 u) "/" = true <-> exists q, u = String.append "/" q.
  Proof.
    rewrite String.eqb_eq. unfold substr_first.
    destruct u as [|c u]; simpl; [split; [discriminate | intros [q Hq]; discriminate]|].
    split.
    - intros H. injection H as ->. exists u. reflexivity.
    - intros [q Hq]. injection Hq as -> _. destruct u; reflexivity.
  Qed.

Lemma last_index_from_cons (pat : string) (c : ascii) (s : string) i acc :
    last_index_from pat (String c s) i acc =
      last_index_from pat s (S i) (if String.prefix pat (String c s) then Z.of_nat i else acc).
  Proof. reflexivity. Qed.

Lemma prefix_slash_cons (b : string) : String.prefix "/" (String "/"%char b) = true.
  Proof. apply prefix_slash. exists b. reflexivity. Qed.

  (** No slash in [b]: [lastIndexOf] keeps what it found before [b]. *)
Lemma last_index_no_slash (b : string) : forall i acc,
    indexOf b "/" = (-1)%Z -> last_index_from "/" b i acc = acc.
  Proof.
    unfold indexOf. induction b as [|c b IH]; intros i acc Hb; [reflexivity|].
    rewrite index_cons in Hb. cbn [String.prefix last_index_from] in Hb |- *.
    destruct (Ascii.ascii_dec "/"%char c) as [<-|Hne];
      [rewrite prefix_nil in Hb; discriminate|].
    apply IH. destruct (String.index 0 "/" b); [cbn in Hb; lia | reflexivity].
  Qed.

Lemma last_index_last_slash (a b : string) : forall i acc,
    indexOf b "/" = (-1)%Z ->
    last_index_from "/" (String.append a (String.append "/" b)) i acc =
      Z.of_nat (i + String.length a).
  Proof.
    induction a as [|c a IH]; intros i acc Hb.
    - rewrite sapp_nil_l. change (String.append "/" b) with (String "/"%char b).
      rewrite last_index_from_cons, prefix_slash_cons, Nat.add_0_r.
      apply last_index_no_slash. exact Hb.
    - rewrite sapp_cons, last_index_from_cons, IH by exact Hb. f_equal. cbn. lia.
  Qed.

Lemma lastIndexOf_last_slash (a b : string) :
    indexOf b "/" = (-1)%Z ->
    lastIndexOf (String.append a (String.append "/" b)) "/" = Z.of_nat (String.length a).
  Proof. intros Hb. apply last_index_last_slash. exact Hb. Qed.

Lemma lastIndexOf_no_slash (b : string) :
    indexOf b "/" = (-1)%Z -> lastIndexOf b "/" = (-1)%Z.
  Proof. intros Hb. apply last_index_no_slash. exact Hb. Qed.

  (** Every string has a last slash, or none. *)
Lemma last_slash_split (s : string) :
    indexOf s "/" = (-1)%Z \/
    exists a b, s = String.append a (String.append "/" b) /\ indexOf b "/" = (-1)%Z.
  Proof.
    unfold indexOf. induction s as [|c s IH]; [left; reflexivity|].
    destruct IH as [Hn|(a & b & -> & Hb)].
    - destruct (Ascii.ascii_dec "/"%char c) as [<-|Hne].
      + right. exists "", s. split; [reflexivity | exact Hn].
      + left. rewrite index_cons. cbn [String.prefix]. destruct (Ascii.ascii_dec "/"%char c); [congruence|].
        destruct (String.index 0 "/" s); [lia | reflexivity].
    - right. exists (String c a), b. split; [reflexivity | exact Hb].
  Qed.

Lemma string_last (s : string) :
    s = "" \/ exists p c, s = String.append p (String c "").
  Proof.
    induction s as [|c s IH]; [left; reflexivity|right].
    destruct IH as [->|(p & d & ->)].
    - exists "", c. reflexivity.
    - exists (String c p), d. reflexivity.
  Qed.

End StringFacts.


Module PathFacts.
  Import JsString Paths StringFacts.

Lemma ends_slash_true (c : string) :
    String.eqb (substr_last 1 (String.append c "/")) "/" = true.
  Proof.
    apply String.eqb_eq. apply (substr_last_suffix _ "/"); [discriminate|]. eauto.
  Qed.

Lemma ends_slash_false (c : string) :
    ~ (exists p, c = String.append p "/") ->
    String.eqb (substr_last 1 c) "/" = false.
  Proof.
    intros Hc. apply String.eqb_neq. intros H.
    apply Hc. apply (substr_last_suffix c "/"); [discriminate | exact H].
  Qed.

Lemma starts_slash_false (u : string) :
    ~ (exists q, u = String.append "/" q) -> String.eqb (substr_first 1 u) "/" = false.
  Proof.
    intros Hu. destruct (String.eqb (substr_first 1 u) "/") eqn:E; [|reflexivity].
    exfalso. apply Hu. apply substr_first_slash. exact E.
  Qed.

Lemma starts_slash_true (u : string) :
    String.eqb (substr_first 1 (String.append "/" u)) "/" = true.
  Proof. apply substr_first_slash. eauto. Qed.

Lemma substr_from_slash (u : string) : substr_from 1 (String.append "/" u) = u.
  Proof. apply (substr_from_app "/" u). Qed.

Lemma indexOf_slash_true (u : string) : Z.eqb (indexOf (String.append "/" u) "/") 0 = true.
  Proof.
    apply Z.eqb_eq. apply indexOf_zero; [discriminate|]. apply prefix_slash. eauto.
  Qed.

Lemma indexOf_slash_false (u : string) :
    ~ (exists q, u = String.append "/" q) -> Z.eqb (indexOf u "/") 0 = false.
  Proof.
    intros Hu. apply Z.eqb_neq. intros H.
    apply Hu. apply prefix_slash. apply indexOf_zero; [discriminate | exact H].
  Qed.

Theorem staticScopedPath_one_slash (c u : string) :
    ~ (exists p, c = String.append p "/") -> ~ (exists q, u = String.append "/" q) ->
    staticScopedPath c u = String.append c (String.append "/" u) /\
    staticScopedPath (String.append c "/") u = String.append c (String.append "/" u) /\
    staticScopedPath c (String.append "/" u) = String.append c (String.append "/" u) /\
    staticScopedPath (String.append c "/") (String.append "/" u) =
      String.append c (String.append "/" u).
  Proof.
    intros Hc Hu. unfold staticScopedPath.
    rewrite (ends_slash_false c Hc), ends_slash_true, (starts_slash_false u Hu),
      starts_slash_true, substr_from_slash. cbn [negb].
    rewrite !sapp_assoc. repeat split; reflexivity.
  Qed.

Theorem endpointPath_no_slash_added (c u : string) :
    ~ (exists p, c = String.append p "/") -> ~ (exists q, u = String.append "/" q) ->
    endpointPath c u = String.append c u /\
    endpointPath (String.append c "/") u = String.append c (String.append "/" u) /\
    endpointPath c (String.append "/" u) = String.append c (String.append "/" u) /\
    endpointPath (String.append c "/") (String.append "/" u) =
      String.append c (String.append "/" u).
  Proof.
    intros Hc Hu. unfold endpointPath.
    rewrite (ends_slash_false c Hc), ends_slash_true, (indexOf_slash_false u Hu),
      indexOf_slash_true, substr_from_slash. cbn [andb].
    rewrite !sapp_assoc. repeat split; reflexivity.
  Qed.


Lemma staticScopedPath_one_slash_witness :
    (~ (exists p, "/webapp" = String.append p "/")) /\
    (~ (exists q, "index.html" = String.append "/" q)) /\
    staticScopedPath "/webapp" "index.html" = "/webapp/index.html" /\
    staticScopedPath "/webapp/" "index.html" = "/webapp/index.html" /\
    staticScopedPath "/webapp" "/index.html" = "/webapp/index.html" /\
    staticScopedPath "/webapp/" "/index.html" = "/webapp/index.html".
  Proof.
    assert (H1 : ~ (exists p, "/webapp" = String.append p "/")).
    { intros Hx. apply (substr_last_suffix "/webapp" "/") in Hx; [|discriminate].
      vm_compute in Hx. discriminate. }
    assert (H2 : ~ (exists q, "index.html" = String.append "/" q)).
    { intros Hx. apply prefix_slash in Hx. vm_compute in Hx. discriminate. }
    split; [exact H1|]. split; [exact H2|].
    exact (staticScopedPath_one_slash "/webapp" "index.html" H1 H2).
  Defined.

Lemma endpointPath_no_slash_added_witness :
    (~ (exists p, "/webapp" = String.append p "/")) /\
    (~ (exists q, "users" = String.append "/" q)) /\
    endpointPath "/webapp" "users" = "/webappusers" /\
    endpointPath "/webapp/" "users" = "/webapp/users" /\
    endpointPath "/webapp" "/users" = "/webapp/users" /\
    endpointPath "/webapp/" "/users" = "/webapp/users".
  Proof.
    assert (H1 : ~ (exists p, "/webapp" = String.append p "/")).
    { intros Hx. apply (substr_last_suffix "/webapp" "/") in Hx; [|discriminate].
      vm_compute in Hx. discriminate. }
    assert (H2 : ~ (exists q, "users" = String.append "/" q)).
    { intros Hx. apply prefix_slash in Hx. vm_compute in Hx. discriminate. }
    split; [exact H1|]. split; [exact H2|].
    exact (endpointPath_no_slash_added "/webapp" "users" H1 H2).
  Defined.

End PathFacts.

Module ViewFacts.
  Import JsString View StringFacts.

Lemma substr_after_slash (a b : string) :
    substr_from (Z.to_nat (Z.of_nat (String.length a) + 1))
      (String.append a (String.append "/" b)) = b.
  Proof.
    replace (Z.to_nat (Z.of_nat (String.length a) + 1))
      with (String.length (String.append a "/")) by (rewrite slength_app; cbn; lia).
    rewrite <- sapp_assoc. apply substr_from_app.
  Qed.

Theorem resolveViewFromRequest_last_segment (a b : string) :
    indexOf b "/" = (-1)%Z ->
    resolveViewFromRequest (String.append a (String.append "/" b)) =
      (if String.eqb b "" then "index" else b) /\
    resolveViewFromRequest b = (if String.eqb b "" then "index" else b).
  Proof.
    intros Hb. unfold resolveViewFromRequest. split.
    - rewrite lastIndexOf_last_slash by exact Hb. rewrite substr_after_slash. reflexivity.
    - rewrite lastIndexOf_no_slash by exact Hb. cbn [Z.add Z.to_nat].
      rewrite substr_from_0. reflexivity.
  Qed.

Lemma no_slash_last (p : string) (c : ascii) :
    indexOf (String.append p (String c "")) "/" = (-1)%Z -> c <> "/"%char.
  Proof.
    unfold indexOf. intros H ->.
    destruct (String.index 0 "/" (String.append p (String "/"%char ""))) eqn:E; [lia|].
    apply index_app_none in E. discriminate.
  Qed.

Lemma substr_last_char (p : string) (c : ascii) :
    substr_last 1 (String.append p (String c "")) = String c "".
  Proof. apply (substr_last_suffix _ (String c "")); [discriminate | eauto]. Qed.

Theorem handlerViewName_nonempty (path : string) :
    path <> "" ->
    handlerViewName path = resolveViewFromRequest path /\
    handlerViewName "" = "" /\ resolveViewFromRequest "" = "index".
  Proof.
    intros Hp. split; [|split; reflexivity].
    unfold handlerViewName, resolveViewFromRequest.
    destruct (last_slash_split path) as [Hn|(a & b & -> & Hb)].
    - rewrite (lastIndexOf_no_slash _ Hn). cbn [Z.add Z.to_nat]. rewrite substr_from_0.
      destruct (string_last path) as [->|(p & c & ->)]; [congruence|].
      rewrite substr_last_char.
      assert (Hc := no_slash_last p c Hn).
      replace (String.eqb (String c "") "/") with false
        by (symmetry; apply String.eqb_neq; intros H; injection H as H; congruence).
      destruct (String.append p (String c "")) eqn:E; [|reflexivity].
      destruct p; discriminate.
    - rewrite (lastIndexOf_last_slash _ _ Hb), substr_after_slash.
      destruct (string_last b) as [->|(p & c & ->)].
      + rewrite sapp_nil_r. rewrite (PathFacts.ends_slash_true a). reflexivity.
      + rewrite <- !sapp_assoc, substr_last_char.
        assert (Hc : c <> "/"%char) by (apply (no_slash_last p c Hb)).
        replace (String.eqb (String c "") "/") with false
          by (symmetry; apply String.eqb_neq; intros H; injection H as H; congruence).
        destruct (String.append p (String c "")) eqn:E; [destruct p; discriminate|].
        reflexivity.
  Qed.

Lemma lookup_null_or_truthy (resolve : string -> value) (engines : list string)
      (view : string) :
    lookup resolve engines view = VNull \/ truthy (lookup resolve engines view) = true.
  Proof.
    induction engines as [|e rest IH]; [left; reflexivity|]. cbn [lookup].
    match goal with |- context [if truthy ?v then _ else _] =>
      destruct (truthy v) eqn:E end; [right; exact E | exact IH].
  Qed.

Theorem lookup_engine_suffix (resolve : string -> value) (engine view : string)
      (rest : list string) :
    engine <> "" ->
    ((exists p, view = String.append p engine) ->
       lookup resolve (engine :: rest) view =
         (if truthy (resolve view) then resolve view else lookup resolve rest view)) /\
    (~ (exists p, view = String.append p engine) ->
       lookup resolve (engine :: rest) view =
         (if truthy (resolve (String.append view engine))
          then resolve (String.append view engine) else lookup resolve rest view)) /\
    (lookup resolve (engine :: rest) view = VNull \/
     truthy (lookup resolve (engine :: rest) view) = true).
  Proof.
    intros He. split; [|split; [|apply lookup_null_or_truthy]]; intros Hv; cbn [lookup].
    - replace (String.eqb (substr_last (String.length engine) view) engine) with true
        by (symmetry; apply String.eqb_eq, substr_last_suffix; assumption).
      reflexivity.
    - replace (String.eqb (substr_last (String.length engine) view) engine) with false
        by (symmetry; apply String.eqb_neq; intros H;
            apply Hv, substr_last_suffix; assumption).
      reflexivity.
  Qed.


Lemma resolveViewFromRequest_last_segment_witness :
    indexOf "users" "/" = (-1)%Z /\
    resolveViewFromRequest (String.append "/webapp" (String.append "/" "users")) = "users" /\
    resolveViewFromRequest "users" = "users".
  Proof.
    assert (H : indexOf "users" "/" = (-1)%Z) by reflexivity.
    split; [exact H|]. exact (resolveViewFromRequest_last_segment "/webapp" "users" H).
  Defined.

Lemma handlerViewName_nonempty_witness :
    "/webapp/" <> "" /\
    handlerViewName "/webapp/" = resolveViewFromRequest "/webapp/" /\
    handlerViewName "" = "" /\ resolveViewFromRequest "" = "index".
  Proof.
    assert (H : "/webapp/" <> "") by discriminate.
    split; [exact H|]. exact (handlerViewName_nonempty "/webapp/" H).
  Defined.

Lemma lookup_engine_suffix_witness :
    let resolve := fun v => if String.eqb v "home.html" then VStr "home.html" else VUndefined in
    ".html" <> "" /\
    ((exists p, "home.html" = String.append p ".html") ->
       lookup resolve [".html"; ".jade"] "home.html" = VStr "home.html") /\
    (~ (exists p, "home" = String.append p ".html") ->
       lookup resolve [".html"; ".jade"] "home" = VStr "home.html") /\
    (lookup resolve [".html"; ".jade"] "home" = VNull \/
     truthy (lookup resolve [".html"; ".jade"] "home") = true).
  Proof.
    intros resolve.
    assert (H : ".html" <> "") by discriminate.
    split; [exact H|].
    destruct (lookup_engine_suffix resolve ".html" "home.html" [".jade"] H) as (A & _ & _).
    destruct (lookup_engine_suffix resolve ".html" "home" [".jade"] H) as (_ & B & C).
    split; [|split; [|exact C]].
    - intros Hx. rewrite (A Hx). reflexivity.
    - intros Hx. rewrite (B Hx). reflexivity.
  Defined.

End ViewFacts.


Module ModelMoreFacts.
  Import Model ModelFacts.

Lemma invoked_in_waited (ops : list op) (x : nat) :
    In x (invoked (run create ops)) -> In x (waited ops).
  Proof.
    induction ops as [|o ops IH] using rev_ind; [intros []|].
    rewrite run_snoc. unfold waited. rewrite flat_map_app. fold (waited ops).
    destruct (run_state ops) as [Hc _].
    destruct (run create ops) as [c d i]; cbn in Hc, IH; subst c.
    intros H. apply in_app_iff.
    destruct o as [| |cb]; cbn in H.
    - left. apply IH. exact H.
    - unfold resume in H. destruct d; cbn in H; [|left; apply IH; exact H].
      apply in_app_iff in H. destruct H as [H|H]; left; [apply IH|]; exact H.
    - unfold wait in H. destruct d; cbn in H; [left; apply IH; exact H|].
      rewrite !in_app_iff in H. destruct H as [H|[H|H]].
      + left. apply IH. exact H.
      + left. exact H.
      + right. cbn. exact H.
  Qed.


  (** X6. Once a model is deferred (by any earlier calls), a callback
      registered with [wait] is not invoked by [wait] itself and is invoked
      once more by every later [resume()] call. *)
Theorem resume_renotifies (pre post : list op) (cb : nat) :
    deferred (run create pre) = true -> ~ In cb (waited pre) -> ~ In cb (waited post) ->
    count_occ Nat.eq_dec (invoked (run create (pre ++ Wait cb :: post))) cb =
      length (List.filter (fun o => match o with Resume => true | _ => false end) post).
  Proof.
    intros Hdef Hpre.
    assert (Hex : existsb is_defer pre = true)
      by (destruct (run_state pre) as [_ H]; rewrite <- H; exact Hdef).
    induction post as [|o post IH] using rev_ind; intros Hpost.
    - rewrite run_snoc.
      pose proof (invoked_in_waited pre cb) as Hi.
      destruct (run create pre) as [c d i]; cbn in Hdef, Hi; subst d.
      cbn. apply count_occ_not_In. exact (fun H => Hpre (Hi H)).
    - unfold waited in Hpost. rewrite flat_map_app, in_app_iff in Hpost.
      fold (waited post) in Hpost.
      specialize (IH (fun H => Hpost (or_introl H))).
      replace (pre ++ Wait cb :: post ++ [o])
        with ((pre ++ Wait cb :: post) ++ [o])
        by (rewrite <- app_assoc; reflexivity).
      rewrite run_snoc, List.filter_app, length_app.
      destruct (run_state (pre ++ Wait cb :: post)) as [Hc Hd].
      rewrite existsb_app, Hex in Hd.
      destruct (run create (pre ++ Wait cb :: post)) as [c d i];
        cbn in Hc, Hd, IH |- *; subst d.
      destruct o as [| |cb']; cbn.
      + lia.
      + unfold resume, notify. cbn. rewrite count_occ_app, IH, Hc.
        unfold waited. rewrite flat_map_app. cbn. fold (waited pre) (waited post).
        rewrite count_occ_app. cbn.
        rewrite (proj1 (count_occ_not_In _ _ _) Hpre).
        rewrite (proj1 (count_occ_not_In _ _ _) (fun H => Hpost (or_introl H))).
        destruct (Nat.eq_dec cb cb); [lia | congruence].
      + lia.
  Qed.

Lemma resume_renotifies_witness :
    deferred (run create [Wait 1; Defer]) = true /\
    ~ In 7 (waited [Wait 1; Defer]) /\ ~ In 7 (waited [Resume; Wait 2; Resume]) /\
    count_occ Nat.eq_dec
      (invoked (run create ([Wait 1; Defer] ++ Wait 7 :: [Resume; Wait 2; Resume]))) 7 = 2.
  Proof.
    assert (H0 : deferred (run create [Wait 1; Defer]) = true) by reflexivity.
    assert (H1 : ~ In 7 (waited [Wait 1; Defer])) by (cbn; lia).
    assert (H2 : ~ In 7 (waited [Resume; Wait 2; Resume])) by (cbn; lia).
    split; [exact H0|]. split; [exact H1|]. split; [exact H2|].
    exact (resume_renotifies [Wait 1; Defer] [Resume; Wait 2; Resume] 7 H0 H1 H2).
  Defined.

End ModelMoreFacts.


Module DispatchLoopFacts.
  Import Dispatch DispatchFacts DispatchLoop.

  (** A filter that calls neither [next()] nor [stop()] and does not throw
      ends the request at any valid endpoint [Module.dispatch] reaches:
      neither [handle], nor the continuation, nor another endpoint runs. *)
Theorem silent_filter_ends_request (fs : buckets) (fuel : nat) (eps : list endpoint)
      (ep : endpoint) (s : st) (pre post : list filter) (f : filter) :
    ep_valid ep = true ->
    flatten fs = pre ++ f :: post -> Forall is_next pre -> execute f = [] ->
    processNextEndpoint (S fuel) fs eps (Some ep) s =
      (mkSt (filterList s) (index s)
         (trace s ++ map (fun g => EExecute (filter_id g)) (pre ++ [f])), Ok tt).
  Proof.
    intros Hv Hfl Hpre Hf.
    destruct (pne_valid fuel fs eps ep s Hv) as (k & Heq & Hke & Hkc & _ & _).
    rewrite Heq, (processFilters_stops (ep_id ep) (express_handle ep) k Hke Hkc fs pre f post 0 s
                    Hfl Hpre Hf).
    rewrite map_app. reflexivity.
  Qed.

Lemma pne_Some (fuel : nat) (fs : buckets) (eps : list endpoint) (ep : endpoint) :
    processNextEndpoint (S fuel) fs eps (Some ep) =
      dispatch fs (ep_valid ep) (express_handle ep)
        (fun i =>
           emit (ENext (ep_id ep) i) ;;
           match i with
           | InfoError err => raise err
           | InfoCancel => mret tt
           | InfoNone =>
               idx ← get_index;
               set_index (S idx) ;;
               processNextEndpoint fuel fs eps (eps !! S idx)
           end).
  Proof. reflexivity. Qed.

  (** Endpoints that pass the request on, one after the other. *)
Lemma pne_skip (fs : buckets) (eps pre : list endpoint) :
    Forall is_next (flatten fs) -> Forall declines pre ->
    forall k fuel T i' T',
    (forall j, j < length pre -> eps !! (k + j) = pre !! j) ->
    (forall L, processNextEndpoint fuel fs eps (eps !! (k + length pre))
                 (mkSt L (k + length pre) (T ++ flat_map (declined (flatten fs)) pre)) =
               (mkSt L i' T', Ok tt)) ->
    forall L, processNextEndpoint (length pre + fuel) fs eps (eps !! k) (mkSt L k T) =
              (mkSt L i' T', Ok tt).
  Proof.
    intros Hn Hd. induction Hd as [|ep pre Hep Hd IH];
      intros k fuel T i' T' Heps Hin L.
    - cbn [length plus] in *. rewrite Nat.add_0_r in Hin.
      rewrite <- (app_nil_r T). exact (Hin L).
    - assert (Hk : eps !! k = Some ep)
        by (rewrite <- (Nat.add_0_r k); apply (Heps 0); cbn; lia).
      rewrite Hk. cbn [length plus]. rewrite pne_Some.
      assert (Heps' : forall j, j < length pre -> eps !! (S k + j) = pre !! j)
        by (intros j Hj; replace (S k + j) with (k + S j) by lia; apply (Heps (S j)); cbn; lia).
      replace (k + length (ep :: pre)) with (S k + length pre) in Hin by (cbn; lia).
      cbn [flat_map] in Hin. unfold declined at 1 in Hin.
      destruct ep as [id v c]; unfold declines in Hep;
        cbn [ep_valid ep_canHandle ep_id] in *; destruct v.
      + destruct c; [destruct Hep; discriminate|].
        unfold dispatch. cbn [negb].
        apply processFilters_all_next; [exact Hn|].
        unfold dispatch_callback, express_handle. unfold_M.
        unfold get_index, set_index. cbn -[processNextEndpoint].
        rewrite <- ?app_assoc. cbn [app].
        apply (IH (S k) fuel (T ++ map (fun g => EExecute (filter_id g)) (flatten fs) ++
                                [EHandle id; ENext id InfoNone]) i' T' Heps').
        intros L'. specialize (Hin L'). repeat rewrite <- app_assoc in Hin.
        repeat rewrite <- app_assoc. cbn [app] in Hin |- *. exact Hin.
      + unfold dispatch. cbn [negb]. unfold_M.
        unfold get_index, set_index. cbn -[processNextEndpoint].
        rewrite <- ?app_assoc. cbn [app].
        apply (IH (S k) fuel (T ++ [ENext id InfoNone]) i' T' Heps').
        intros L'. specialize (Hin L'). repeat rewrite <- app_assoc in Hin.
        repeat rewrite <- app_assoc. cbn [app] in Hin |- *. exact Hin.
  Qed.

Theorem no_endpoint_accepts (fs : buckets) (eps : list endpoint) :
    Forall is_next (flatten fs) -> Forall declines eps ->
    run_module fs eps = (flat_map (declined (flatten fs)) eps ++ [EModuleNext], Ok tt).
  Proof.
    intros Hn Hd. unfold run_module, module_dispatch.
    unfold mbind, M_bind, set_index. cbn -[processNextEndpoint].
    replace (S (length eps)) with (length eps + 1) by lia.
    rewrite (pne_skip fs eps eps Hn Hd 0 1 [] (length eps)
               (flat_map (declined (flatten fs)) eps ++ [EModuleNext])); [reflexivity| |].
    - intros j _. reflexivity.
    - intros L. cbn [plus]. rewrite lookup_ge_None_2 by lia. reflexivity.
  Qed.

Theorem first_accepting_endpoint (fs : buckets) (pre post : list endpoint)
      (ep : endpoint) :
    Forall is_next (flatten fs) -> Forall declines pre ->
    ep_valid ep = true -> ep_canHandle ep = true ->
    run_module fs (pre ++ ep :: post) =
      (flat_map (declined (flatten fs)) pre ++
       map (fun g => EExecute (filter_id g)) (flatten fs) ++ [EHandle (ep_id ep)], Ok tt).
  Proof.
    intros Hn Hd Hv Hc. unfold run_module, module_dispatch.
    unfold mbind, M_bind, set_index. cbn -[processNextEndpoint].
    replace (S (length (pre ++ ep :: post))) with (length pre + S (S (length post)))
      by (rewrite length_app; cbn; lia).
    rewrite (pne_skip fs (pre ++ ep :: post) pre Hn Hd 0 (S (S (length post))) [] (length pre)
               (flat_map (declined (flatten fs)) pre ++
                map (fun g => EExecute (filter_id g)) (flatten fs) ++ [EHandle (ep_id ep)]));
      [reflexivity| |].
    - intros j Hj. cbn [plus]. apply lookup_app_l. exact Hj.
    - intros L. cbn [plus app]. rewrite lookup_app_r by lia. rewrite Nat.sub_diag.
      cbn [lookup list_lookup]. rewrite pne_Some, Hv. unfold dispatch. cbn [negb].
      apply processFilters_all_next; [exact Hn|].
      unfold dispatch_callback, express_handle. rewrite Hc. unfold_M. cbn.
      rewrite <- app_assoc. reflexivity.
  Qed.

Lemma silent_filter_ends_request_witness :
    ep_valid (mkEndpoint 6 true false) = true /\
    flatten [Some [mkFilter 1 [ANext]]; None; Some [mkFilter 2 []; mkFilter 3 [ANext]]] =
      [mkFilter 1 [ANext]] ++ mkFilter 2 [] :: [mkFilter 3 [ANext]] /\
    Forall is_next [mkFilter 1 [ANext]] /\ execute (mkFilter 2 []) = [] /\
    processNextEndpoint 2 [Some [mkFilter 1 [ANext]]; None; Some [mkFilter 2 []; mkFilter 3 [ANext]]]
      [mkEndpoint 5 false true; mkEndpoint 6 true false] (Some (mkEndpoint 6 true false))
      (mkSt [] 1 [ENext 5 InfoNone]) =
      (mkSt [] 1 ([ENext 5 InfoNone] ++
                  map (fun g => EExecute (filter_id g)) ([mkFilter 1 [ANext]] ++ [mkFilter 2 []])),
       Ok tt).
  Proof.
    assert (H1 : flatten [Some [mkFilter 1 [ANext]]; None; Some [mkFilter 2 []; mkFilter 3 [ANext]]] =
      [mkFilter 1 [ANext]] ++ mkFilter 2 [] :: [mkFilter 3 [ANext]]) by reflexivity.
    assert (H2 : Forall is_next [mkFilter 1 [ANext]]) by (repeat constructor).
    assert (H3 : execute (mkFilter 2 []) = []) by reflexivity.
    split; [reflexivity|]. split; [exact H1|]. split; [exact H2|]. split; [exact H3|].
    exact (silent_filter_ends_request _ 1 _ (mkEndpoint 6 true false) (mkSt [] 1 [ENext 5 InfoNone])
             _ _ _ eq_refl H1 H2 H3).
  Defined.

Lemma no_endpoint_accepts_witness :
    Forall is_next (flatten [Some [mkFilter 1 [ANext]; mkFilter 2 [ANext]]]) /\
    Forall declines [mkEndpoint 5 false true; mkEndpoint 6 true false] /\
    run_module [Some [mkFilter 1 [ANext]; mkFilter 2 [ANext]]]
      [mkEndpoint 5 false true; mkEndpoint 6 true false] =
      ([ENext 5 InfoNone; EExecute 1; EExecute 2; EHandle 6; ENext 6 InfoNone; EModuleNext],
       Ok tt).
  Proof.
    assert (H1 : Forall is_next (flatten [Some [mkFilter 1 [ANext]; mkFilter 2 [ANext]]]))
      by (repeat constructor).
    assert (H2 : Forall declines [mkEndpoint 5 false true; mkEndpoint 6 true false])
      by (repeat constructor; cbn; auto).
    split; [exact H1|]. split; [exact H2|].
    exact (no_endpoint_accepts _ _ H1 H2).
  Defined.

Lemma first_accepting_endpoint_witness :
    Forall is_next (flatten [Some [mkFilter 1 [ANext]]]) /\
    Forall declines [mkEndpoint 5 true false] /\
    ep_valid (mkEndpoint 6 true true) = true /\ ep_canHandle (mkEndpoint 6 true true) = true /\
    run_module [Some [mkFilter 1 [ANext]]]
      ([mkEndpoint 5 true false] ++ mkEndpoint 6 true true :: [mkEndpoint 7 true true]) =
      ([EExecute 1; EHandle 5; ENext 5 InfoNone; EExecute 1; EHandle 6], Ok tt).
  Proof.
    assert (H1 : Forall is_next (flatten [Some [mkFilter 1 [ANext]]])) by (repeat constructor).
    assert (H2 : Forall declines [mkEndpoint 5 true false]) by (repeat constructor; cbn; auto).
    assert (H3 : ep_valid (mkEndpoint 6 true true) = true) by reflexivity.
    assert (H4 : ep_canHandle (mkEndpoint 6 true true) = true) by reflexivity.
    split; [exact H1|]. split; [exact H2|]. split; [exact H3|]. split; [exact H4|].
    exact (first_accepting_endpoint _ _ _ _ H1 H2 H3 H4).
  Defined.

End DispatchLoopFacts.


Module ModuleV2Facts.
  Import ModuleV2.

Lemma positions_app (a b : list call) :
    endpoint_positions (a ++ b) = endpoint_positions a ++ endpoint_positions b.
  Proof. unfold endpoint_positions. apply flat_map_app. Qed.

Lemma positions_in (cs : list call) (k : nat) :
    In k (endpoint_positions cs) <-> exists rh p, In (CEndpoint rh k p) cs.
  Proof.
    induction cs as [|c cs IH]; cbn; [split; [intros []| intros (? & ? & [])]|].
    rewrite in_app_iff, IH. destruct c as [rh j p|rh]; cbn; split.
    - intros [[->|[]]|(rh' & p' & H)]; eauto.
    - intros (rh' & p' & [H|H]); [injection H as -> -> ->; auto | eauto].
    - intros [[]|(rh' & p' & H)]; eauto.
    - intros (rh' & p' & [H|H]); [discriminate | eauto].
  Qed.

Lemma register_from_spec (ctx : string) (rh : nat) (eps : list endpoint) :
    forall k,
    let '(eps', cs) := register_from ctx rh k eps in
    (forall j, eps' !! j = option_map (fun ep => mkEp (ep_path ep) true) (eps !! j)) /\
    (forall c, In c cs <-> exists j ep, eps !! j = Some ep /\ registered ep = false /\
                 c = CEndpoint rh (k + j) (Paths.endpointPath ctx (ep_path ep))) /\
    List.NoDup (endpoint_positions cs) /\
    (forall x, In x (endpoint_positions cs) -> k <= x).
  Proof.
    induction eps as [|ep rest IH]; intros k; cbn [register_from].
    - split; [intros j; reflexivity|]. split; [|split; [constructor | intros x []]].
      intros c. split; [intros []|]. intros (j & ep & H & _). discriminate.
    - specialize (IH (S k)). destruct (register_from ctx rh (S k) rest) as [rest' cs].
      destruct IH as (H1 & H2 & H3 & H4).
      destruct ep as [path r]; destruct r; cbn [registered ep_path].
      + split; [intros [|j]; [reflexivity | apply H1]|].
        split; [|split; [exact H3 | intros x Hx; specialize (H4 x Hx); lia]].
        intros c. rewrite H2. split.
        * intros (j & ep & Hj & Hr & ->). exists (S j), ep.
          split; [exact Hj|]. split; [exact Hr|]. f_equal. lia.
        * intros ([|j] & ep & Hj & Hr & ->).
          -- cbn in Hj. injection Hj as <-. discriminate.
          -- exists j, ep. split; [exact Hj|]. split; [exact Hr|]. f_equal. lia.
      + split; [intros [|j]; [reflexivity | apply H1]|].
        split; [|split].
        * intros c. cbn [In]. rewrite H2. split.
          -- intros [<-|(j & ep & Hj & Hr & ->)].
             ++ exists 0, (mkEp path false). rewrite Nat.add_0_r. auto.
             ++ exists (S j), ep. split; [exact Hj|]. split; [exact Hr|]. f_equal. lia.
          -- intros ([|j] & ep & Hj & Hr & ->).
             ++ cbn in Hj. injection Hj as <-. left. rewrite Nat.add_0_r. reflexivity.
             ++ right. exists j, ep. split; [exact Hj|]. split; [exact Hr|]. f_equal. lia.
        * cbn. constructor; [|exact H3]. intros Hk. specialize (H4 k Hk). lia.
        * cbn. intros x [<-|Hx]; [lia|]. specialize (H4 x Hx). lia.
  Qed.

Lemma lookup_registered (eps : list endpoint) (j : nat) (ep : endpoint) :
    option_map (fun ep => mkEp (ep_path ep) true) (eps !! j) = Some ep ->
    exists ep0, eps !! j = Some ep0 /\ ep = mkEp (ep_path ep0) true.
  Proof. destruct (eps !! j) as [ep0|]; cbn; [intros H; injection H as <-; eauto | discriminate]. Qed.

Lemma pue_spec (ctx : string) (s : st) :
    calls_consistent ctx s ->
    calls_consistent ctx (processUnregisteredEndpoints ctx s) /\
    all_registered (processUnregisteredEndpoints ctx s) /\
    requestHandler (processUnregisteredEndpoints ctx s) = requestHandler s.
  Proof.
    intros (J1 & J2 & J3 & J4). unfold processUnregisteredEndpoints.
    destruct (requestHandler s) as [rh|] eqn:Hrh;
      [|split; [split; [exact J1 | split; [exact J2 | split; [exact J3 |
                                intros _; apply J4; reflexivity]]]
               | split; [intros H; congruence | exact Hrh]]].
    pose proof (register_from_spec ctx rh (endpoints s) 0) as Hspec.
    destruct (register_from ctx rh 0 (endpoints s)) as [eps' cs].
    destruct Hspec as (R1 & R2 & R3 & R4). unfold calls_consistent, all_registered; cbn [calls endpoints requestHandler].
    split; [|split; [|reflexivity]].
    - split; [|split; [|split]].
      + rewrite positions_app. apply (List.NoDup_app J1 R3).
        intros x Hx Hx'. apply J2 in Hx as (ep & Hep & Hr).
        apply positions_in in Hx' as (rh' & p & Hc). apply R2 in Hc as (j & ep' & Hj & Hr' & Hc).
        injection Hc as -> <- ->. cbn in Hep. congruence.
      + intros k. rewrite positions_app, in_app_iff, J2, positions_in. split.
        * intros [(ep & Hep & _)|(rh' & p & Hc)].
          -- exists (mkEp (ep_path ep) true). rewrite R1, Hep. auto.
          -- apply R2 in Hc as (j & ep & Hj & _ & Hc). injection Hc as -> -> ->.
             exists (mkEp (ep_path ep) true). rewrite R1. cbn. rewrite Hj. auto.
        * intros (ep & Hep & _). rewrite R1 in Hep. apply lookup_registered in Hep as (ep0 & Hep0 & ->).
          destruct (registered ep0) eqn:Hr; [left; eauto|right].
          exists rh, (Paths.endpointPath ctx (ep_path ep0)). apply R2. eauto.
      + intros rh' k p Hin. apply in_app_iff in Hin as [Hin|Hin].
        * destruct (J3 _ _ _ Hin) as (ep & Hep & ->).
          exists (mkEp (ep_path ep) true). rewrite R1, Hep. auto.
        * apply R2 in Hin as (j & ep & Hj & _ & Hc). injection Hc as -> -> ->.
          exists (mkEp (ep_path ep) true). rewrite R1. cbn. rewrite Hj. auto.
      + discriminate.
    - intros _ k ep Hep. rewrite R1 in Hep. apply lookup_registered in Hep as (ep0 & _ & ->). reflexivity.
  Qed.

Lemma push_consistent (ctx path : string) (s : st) :
    calls_consistent ctx s ->
    calls_consistent ctx (mkSt (endpoints s ++ [mkEp path false]) (requestHandler s) (calls s)).
  Proof.
    intros (J1 & J2 & J3 & J4). unfold calls_consistent, all_registered; cbn [calls endpoints requestHandler].
    split; [exact J1|]. split; [|split; [|exact J4]].
    - intros k. rewrite J2. split.
      + intros (ep & Hep & Hr). exists ep. rewrite (lookup_app_l_Some _ _ _ _ Hep). auto.
      + intros (ep & Hep & Hr). apply lookup_app_Some in Hep as [Hep|(Hl & Hep)]; [eauto|].
        apply list_lookup_singleton_Some in Hep as [_ <-]. discriminate.
    - intros rh k p Hin. destruct (J3 _ _ _ Hin) as (ep & Hep & ->).
      exists ep. rewrite (lookup_app_l_Some _ _ _ _ Hep). auto.
  Qed.

Lemma route_spec (ctx path : string) (ok : bool) (s : st) :
    calls_consistent ctx s -> all_registered s ->
    calls_consistent ctx (route ctx path ok s).1 /\ all_registered (route ctx path ok s).1 /\
    requestHandler (route ctx path ok s).1 = requestHandler s.
  Proof.
    intros J I. unfold route. destruct ok; cbn [negb fst]; [|auto].
    destruct (pue_spec ctx _ (push_consistent ctx path s J)) as (J' & I' & H).
    auto.
  Qed.

Lemma route_all_spec (ctx : string) (routes : list (string * bool)) :
    forall s, calls_consistent ctx s -> all_registered s ->
    calls_consistent ctx (route_all ctx routes s).1 /\
    all_registered (route_all ctx routes s).1 /\
    requestHandler (route_all ctx routes s).1 = requestHandler s.
  Proof.
    induction routes as [|[p ok] rest IH]; intros s J I; cbn [route_all]; [auto|].
    destruct (route_spec ctx p ok s J I) as (J1 & I1 & H1).
    destruct (route ctx p ok s) as [s1 b]; cbn [fst] in *.
    destruct b; [|auto].
    destruct (IH s1 J1 I1) as (J2 & I2 & H2). rewrite H2, H1. auto.
  Qed.

Lemma init_spec (ctx : string) (routes : list (string * bool)) (rh : nat) (s : st) :
    calls_consistent ctx s -> all_registered s ->
    calls_consistent ctx (init ctx routes rh s).1 /\ all_registered (init ctx routes rh s).1.
  Proof.
    intros J I. unfold init.
    destruct (route_all_spec ctx routes s J I) as (J1 & I1 & _).
    destruct (route_all ctx routes s) as [s1 b]; cbn [fst] in *.
    destruct b; cbn [negb fst]; [|auto].
    assert (Jh : calls_consistent ctx (mkSt (endpoints s1) (Some rh) (calls s1))).
    { destruct J1 as (A & B & C & D). split; [exact A|split; [exact B|split; [exact C|discriminate]]]. }
    destruct (pue_spec ctx _ Jh) as ((A & B & C & D) & I2 & H2).
    cbn [requestHandler] in H2.
    split.
    - unfold calls_consistent, all_registered; cbn [calls endpoints requestHandler]. split; [|split; [|split]].
      + rewrite positions_app, app_nil_r. exact A.
      + intros k. rewrite positions_app, app_nil_r. apply B.
      + intros rh' k p Hin. apply in_app_iff in Hin as [Hin|[Hin|[]]]; [|discriminate].
        apply C in Hin. exact Hin.
      + rewrite H2. discriminate.
    - intros _. apply I2. rewrite H2. discriminate.
  Qed.

Theorem endpoints_registered_once (ctx : string) (routes : list (string * bool))
      (ops : list op) :
    let s := run ctx routes ops in
    List.NoDup (endpoint_positions (calls s)) /\
    (forall k, In k (endpoint_positions (calls s)) <->
               exists ep, endpoints s !! k = Some ep /\ registered ep = true) /\
    (forall rh k p, In (CEndpoint rh k p) (calls s) ->
       exists ep, endpoints s !! k = Some ep /\ p = Paths.endpointPath ctx (ep_path ep)) /\
    (requestHandler s = None -> calls s = []) /\
    (requestHandler s <> None ->
       forall k ep, endpoints s !! k = Some ep -> registered ep = true).
  Proof.
    cbv zeta. unfold run.
    assert (H : forall s, calls_consistent ctx s -> all_registered s ->
              calls_consistent ctx (foldl (step ctx routes) s ops) /\
              all_registered (foldl (step ctx routes) s ops)).
    { induction ops as [|o ops IH]; intros s J I; cbn [foldl]; [auto|].
      apply IH; destruct o as [p ok|rh]; cbn [step];
        first [apply route_spec | apply init_spec]; assumption. }
    destruct (H create) as ((A & B & C & D) & E).
    - unfold calls_consistent. cbn.
      split; [constructor|]. split; [|split; [intros ? ? ? []|intros _; reflexivity]].
      intros k. split; [intros []|intros (ep & Hep & _); discriminate].
    - intros H'. exfalso. apply H'. reflexivity.
    - exact (conj A (conj B (conj C (conj D E)))).
  Qed.
End ModuleV2Facts.


Module MiddlewareFacts.
  Import JsString Middleware.

Lemma init_count_app k a b : init_count k (a ++ b) = init_count k a + init_count k b.
  Proof. unfold init_count. rewrite List.filter_app, length_app. reflexivity. Qed.

Lemma init_count_pos k evs : 0 < init_count k evs -> In (MwInit k) evs.
  Proof.
    induction evs as [|e evs IH]; cbn; [lia|].
    destruct e as [j|j| |]; cbn; try (intros H; right; apply IH; exact H).
    destruct (Nat.eqb_spec j k) as [->|Hne]; cbn.
    - intros _. left. reflexivity.
    - intros H. right. apply IH. exact H.
  Qed.

Lemma snoc_split {A} (l : list A) (e x : A) pre post :
    l ++ [e] = pre ++ x :: post ->
    (post = [] /\ l = pre /\ e = x) \/ exists post', post = post' ++ [e] /\ l = pre ++ x :: post'.
  Proof.
    destruct post as [|y post _] using rev_ind; intros H.
    - left. apply app_inj_tail in H as [-> ->]. auto.
    - right. exists post. rewrite app_comm_cons, app_assoc in H.
      apply app_inj_tail in H as [-> ->]. auto.
  Qed.

  (** The effect of [init_and_dispatch] on the module at position [k]. *)
Lemma iad_spec k (s : st) d :
    descs s !! k = Some d ->
    let '(s1, thrown) := init_and_dispatch k s in
    thrown = negb (md_initialized d || negb (md_init_throws d)) /\
    length (descs s1) = length (descs s) /\
    (forall j, j <> k -> descs s1 !! j = descs s !! j) /\
    descs s1 !! k = Some (if md_initialized d || md_init_throws d then d else set_initialized d) /\
    events s1 = events s ++ (if md_initialized d then [] else [MwInit k]) ++
                (if md_initialized d || negb (md_init_throws d) then [MwDispatch k] else []).
  Proof.
    intros Hk. unfold init_and_dispatch. rewrite Hk.
    assert (Hl : k < length (descs s)) by (eapply lookup_lt_Some; exact Hk).
    destruct (md_initialized d) eqn:Hi; cbn [descs events orb negb].
    - split; [reflexivity|]. split; [reflexivity|]. split; [reflexivity|].
      split; [exact Hk|]. reflexivity.
    - destruct (md_init_throws d) eqn:Ht; cbn [descs events negb].
      + split; [reflexivity|]. split; [reflexivity|]. split; [reflexivity|].
        split; [exact Hk|]. rewrite List.app_nil_r. reflexivity.
      + split; [reflexivity|]. split; [apply length_insert|]. split.
        * intros j Hj. apply list_lookup_insert_ne. congruence.
        * split; [apply list_lookup_insert_eq; exact Hl|].
          rewrite <- app_assoc. reflexivity.
  Qed.

Lemma inv_snoc_other (s : st) e :
    mw_inv s -> (forall k, e <> MwInit k) -> (forall k, e <> MwDispatch k) ->
    mw_inv (mkSt (descs s) (events s ++ [e])).
  Proof.
    intros [H1 H2] He1 He2. unfold mw_inv.
    assert (Hc : forall k, init_count k [e] = 0).
    { intros k. destruct e as [j|j| |]; try reflexivity. exfalso. exact (He1 j eq_refl). }
    split; cbn [descs events].
    - intros j. specialize (H1 j). destruct (descs s !! j) as [d|]; [|rewrite init_count_app, Hc; lia].
      destruct (md_init_throws d).
      + destruct H1 as [Hi Hn]. split; [exact Hi|].
        rewrite in_app_iff. intros [H|[H|[]]]; [exact (Hn H)|exact (He2 j H)].
      + rewrite init_count_app, Hc. lia.
    - intros k pre post Hs. apply snoc_split in Hs as [(_ & _ & Hx)|(post' & _ & Hs)].
      + exfalso. exact (He2 k Hx).
      + exact (H2 k pre post' Hs).
  Qed.

Lemma iad_inv (s : st) k : mw_inv s -> mw_inv (init_and_dispatch k s).1.
  Proof.
    intros [H1 H2]. unfold mw_inv, init_and_dispatch.
    destruct (descs s !! k) as [d|] eqn:Hk; [|split; assumption].
    assert (Hl : k < length (descs s)) by (eapply lookup_lt_Some; exact Hk).
    assert (Hk1 := H1 k). rewrite Hk in Hk1.
    destruct (md_initialized d) eqn:Hi; cbn [fst descs events].
    - (* already initialized: only the dispatch *)
      destruct (md_init_throws d) eqn:Ht; rewrite ?Ht, ?Hi in Hk1; [destruct Hk1; discriminate|].
      split.
      + intros j. specialize (H1 j). destruct (descs s !! j) as [dj|] eqn:Hj; rewrite ?Hj in H1.
        * destruct (md_init_throws dj) eqn:Htj; rewrite ?Htj in H1.
          -- destruct H1 as [Hij Hn]. split; [exact Hij|].
             rewrite in_app_iff. intros [H|[H|[]]]; [exact (Hn H)|].
             injection H as ->. rewrite Hk in Hj. injection Hj as <-. congruence.
          -- rewrite init_count_app. cbn. lia.
        * rewrite init_count_app. cbn. lia.
      + intros j pre post Hs. apply snoc_split in Hs as [(_ & <- & Hx)|(post' & _ & Hs)].
        * injection Hx as <-. apply init_count_pos. rewrite Hk1. lia.
        * exact (H2 j pre post' Hs).
    - destruct (md_init_throws d) eqn:Ht; rewrite ?Ht, ?Hi in Hk1; cbn [fst descs events].
      + (* [init()] throws *)
        split.
        * intros j. specialize (H1 j). rewrite init_count_app.
          destruct (Nat.eq_dec j k) as [->|Hne].
          -- rewrite Hk, Ht. destruct Hk1 as [_ Hn].
             split; [exact Hi|]. rewrite in_app_iff. intros [H|[H|[]]]; [exact (Hn H)|discriminate].
          -- assert (E : init_count j [MwInit k] = 0)
               by (cbn; apply Nat.eqb_neq in Hne; rewrite Nat.eqb_sym, Hne; reflexivity).
             destruct (descs s !! j) as [dj|] eqn:Hj; rewrite ?Hj in H1; [|lia].
             destruct (md_init_throws dj) eqn:Htj; rewrite ?Htj in H1; [|lia].
             destruct H1 as [Hij Hn]. split; [exact Hij|].
             rewrite in_app_iff. intros [H|[H|[]]]; [exact (Hn H)|discriminate].
        * intros j pre post Hs. apply snoc_split in Hs as [(_ & _ & Hx)|(post' & _ & Hs)];
            [discriminate|exact (H2 j pre post' Hs)].
      + split.
        * intros j. rewrite init_count_app, init_count_app.
          destruct (Nat.eq_dec j k) as [->|Hne].
          -- rewrite list_lookup_insert_eq by exact Hl. cbn.
             rewrite Ht, Hk1. rewrite Nat.eqb_refl. reflexivity.
          -- rewrite list_lookup_insert_ne by congruence. specialize (H1 j).
             assert (E : init_count j [MwInit k] + init_count j [MwDispatch k] = 0)
               by (cbn; apply Nat.eqb_neq in Hne; rewrite Nat.eqb_sym, Hne; reflexivity).
             destruct (descs s !! j) as [dj|] eqn:Hj; rewrite ?Hj in H1; [|lia].
             destruct (md_init_throws dj) eqn:Htj; rewrite ?Htj in H1; [|lia].
             destruct H1 as [Hij Hn]. split; [exact Hij|].
             rewrite !in_app_iff. intros [[H|[H|[]]]|[H|[]]];
               [exact (Hn H)|discriminate|congruence].
        * intros j pre post Hs.
          apply snoc_split in Hs as [(_ & <- & Hx)|(post' & _ & Hs)].
          -- injection Hx as <-. apply in_or_app. right. left. reflexivity.
          -- apply snoc_split in Hs as [(_ & _ & Hx)|(post'' & _ & Hs)]; [discriminate|].
             exact (H2 j pre post'' Hs).
  Qed.

Lemma init_count_In k evs : In (MwInit k) evs -> 0 < init_count k evs.
  Proof.
    unfold init_count. induction evs as [|e evs IH]; cbn; [intros []|].
    intros [->|H].
    - rewrite Nat.eqb_refl. cbn. lia.
    - specialize (IH H). destruct e as [j|j| |]; cbn; try exact IH.
      destruct (Nat.eqb j k); cbn; lia.
  Qed.

Lemma no_init_no_dispatch (s : st) j :
    (forall j pre post, events s = pre ++ MwDispatch j :: post -> In (MwInit j) pre) ->
    init_count j (events s) = 0 -> ~ In (MwDispatch j) (events s).
  Proof.
    intros H2 H0 Hin. apply in_split in Hin as (pre & post & Hs).
    pose proof (init_count_In j pre (H2 j pre post Hs)) as Hp.
    rewrite Hs, init_count_app in H0. lia.
  Qed.

Lemma register_inv ctx throws (s : st) : mw_inv s -> mw_inv (register ctx throws s).
  Proof.
    intros [H1 H2]. unfold mw_inv, register; cbn [descs events]. split; [|exact H2].
    intros j. specialize (H1 j). rewrite lookup_app.
    destruct (descs s !! j) as [d|] eqn:Hj; [exact H1|].
    destruct (j - length (descs s)) as [|m]; cbn; [|exact H1].
    destruct throws; [|exact H1].
    split; [reflexivity|]. exact (no_init_no_dispatch s j H2 H1).
  Qed.

Lemma pnm_unfold react p fuel k s :
    processNextModule react p fuel k s =
    match descs s !! k with
    | None => (mkSt (descs s) (events s ++ [MwNext]), false)
    | Some d =>
        match fuel with
        | O => (s, false)
        | S fuel' =>
            if Z.eqb (indexOf p (md_context d)) 0 then
              let '(s1, thrown) := init_and_dispatch k s in
              if thrown then (s1, true)
              else
                match react p k with
                | RNext => processNextModule react p fuel' (S k) s1
                | RReturn => (s1, false)
                | RThrow => (s1, true)
                end
            else processNextModule react p fuel' (S k) s
        end
    end.
  Proof. destruct fuel; reflexivity. Qed.

Lemma pnm_inv react p fuel : forall k (s : st),
    mw_inv s -> mw_inv (processNextModule react p fuel k s).1.
  Proof.
    induction fuel as [|fuel IH]; intros k s H; rewrite pnm_unfold;
      destruct (descs s !! k) as [d|] eqn:Hk; cbn [fst];
      try (apply inv_snoc_other; [exact H|discriminate|discriminate]); [exact H|].
    destruct (Z.eqb _ _); [|apply IH; exact H].
    pose proof (iad_inv s k H) as G.
    destruct (init_and_dispatch k s) as [s1 thrown]. cbn [fst] in G.
    destruct thrown; [exact G|].
    destruct (react p k); [apply IH|..]; exact G.
  Qed.

Lemma ws_loop_inv dispatch_throws (ks : list nat) : forall (s : st),
    mw_inv s -> mw_inv (ws_loop dispatch_throws ks s).1.
  Proof.
    induction ks as [|k ks IH]; intros s H; cbn [ws_loop]; [exact H|].
    pose proof (iad_inv s k H) as G.
    destruct (init_and_dispatch k s) as [s1 thrown]. cbn [fst] in G.
    destruct (thrown || dispatch_throws k); [exact G|apply IH; exact G].
  Qed.

Lemma ws_request_inv dispatch_throws (s : st) :
    mw_inv s -> mw_inv (ws_request dispatch_throws s).1.
  Proof.
    intros H. unfold ws_request.
    pose proof (ws_loop_inv dispatch_throws (seq 0 (length (descs s))) s H) as G.
    destruct (ws_loop _ _ _) as [s1 thrown]. cbn [fst] in G.
    destruct thrown; [exact G|]. cbn [fst].
    apply inv_snoc_other; [exact G|discriminate|discriminate].
  Qed.

Lemma inv_conclude (s : st) :
    mw_inv s ->
    (forall k d, descs s !! k = Some d -> md_init_throws d = false ->
       init_count k (events s) = if md_initialized d then 1 else 0) /\
    (forall k d, descs s !! k = Some d -> md_init_throws d = true ->
       md_initialized d = false /\ ~ In (MwDispatch k) (events s)) /\
    (forall k pre post, events s = pre ++ MwDispatch k :: post -> In (MwInit k) pre).
  Proof.
    intros [H1 H2]. split; [|split; [|exact H2]].
    - intros k d Hd Ht. specialize (H1 k). rewrite Hd, Ht in H1. exact H1.
    - intros k d Hd Ht. specialize (H1 k). rewrite Hd, Ht in H1. exact H1.
  Qed.

Lemma inv_empty : mw_inv empty.
  Proof.
    split.
    - intros j. reflexivity.
    - intros j pre post Hs. destruct pre; discriminate.
  Qed.



Lemma reach_refl react p ds k : mw_reaches react p ds k k.
  Proof. intros i di Hi1 Hi2. lia. Qed.

Lemma reach_stop react p ds k j d :
    ds !! k = Some d -> mw_passes react p k d = false ->
    k <= j -> mw_reaches react p ds k j -> j = k.
  Proof.
    intros Hk Hp Hj Hr. destruct (Nat.eq_dec j k) as [->|Hne]; [reflexivity|].
    exfalso. rewrite (Hr k d) in Hp by (lia || exact Hk). discriminate.
  Qed.

Lemma reach_cont react p ds ds1 k j d :
    ds !! k = Some d -> mw_passes react p k d = true ->
    (forall i, i <> k -> ds1 !! i = ds !! i) -> S k <= j ->
    (mw_reaches react p ds k j <-> mw_reaches react p ds1 (S k) j).
  Proof.
    intros Hk Hp Heq Hj. split.
    - intros Hr i di Hi1 Hi2 Hdi. rewrite Heq in Hdi by lia. apply (Hr i di); [lia|lia|exact Hdi].
    - intros Hr i di Hi1 Hi2 Hdi. destruct (Nat.eq_dec i k) as [->|Hne].
      + rewrite Hk in Hdi. injection Hdi as <-. exact Hp.
      + apply (Hr i di); [lia|lia|]. rewrite Heq by exact Hne. exact Hdi.
  Qed.

  (* No module at position [k]: [next()] is called. *)
Ltac mw_next_case :=
    match goal with
    | Hk : _ !! ?k = None |- _ =>
      apply lookup_ge_None_1 in Hk;
      exists [MwNext]; cbn [events descs]; split; [reflexivity|];
      split; [intros j; split; [intros [H|[]]; discriminate|];
              intros (d & Hd & Hj & _); apply lookup_lt_Some in Hd; lia|];
      split; [intros j; split; [intros [H|[]]; discriminate|];
              intros (d & Hd & Hj & _); apply lookup_lt_Some in Hd; lia|];
      split; [split; [intros _ j d Hj Hd; apply lookup_lt_Some in Hd; lia|intros _; left; reflexivity]|];
      split; [discriminate|intros (j & d & Hd & Hj & _); apply lookup_lt_Some in Hd; lia]
    end.

  (** A request from the module at position [k] on: the modules dispatched,
      initialized, whether [next()] is called and whether an exception
      leaves it. *)
Lemma pnm_events react p fuel : forall k (s : st),
    length (descs s) <= k + fuel ->
    let '(s', thrown) := processNextModule react p fuel k s in
    exists new, events s' = events s ++ new /\
      (forall j, In (MwDispatch j) new <-> exists d, descs s !! j = Some d /\ k <= j /\
         mw_reaches react p (descs s) k j /\ indexOf p (md_context d) = 0%Z /\
         (md_initialized d || negb (md_init_throws d)) = true) /\
      (forall j, In (MwInit j) new <-> exists d, descs s !! j = Some d /\ k <= j /\
         mw_reaches react p (descs s) k j /\ indexOf p (md_context d) = 0%Z /\
         md_initialized d = false) /\
      (In MwNext new <-> forall j d, k <= j -> descs s !! j = Some d ->
         mw_passes react p j d = true) /\
      (thrown = true <-> exists j d, descs s !! j = Some d /\ k <= j /\
         mw_reaches react p (descs s) k j /\ indexOf p (md_context d) = 0%Z /\
         ((md_initialized d || negb (md_init_throws d)) = false \/ react p j = RThrow)).
  Proof.
    induction fuel as [|fuel IH]; intros k s Hlen; rewrite pnm_unfold;
      destruct (descs s !! k) as [d|] eqn:Hk;
      [exfalso; apply lookup_lt_Some in Hk; lia|mw_next_case| |mw_next_case].
    - destruct (Z.eqb_spec (indexOf p (md_context d)) 0) as [Hm|Hm].
      + (* matching module *)
        pose proof (iad_spec k s d Hk) as Hiad.
        destruct (init_and_dispatch k s) as [s1 thrown1].
        destruct Hiad as (T1 & L1 & L2 & L3 & L4).
        set (ok := md_initialized d || negb (md_init_throws d)) in *.
        set (e0 := (if md_initialized d then [] else [MwInit k]) ++
                   (if ok then [MwDispatch k] else [])) in *.
        assert (E0d : forall j, In (MwDispatch j) e0 <-> j = k /\ ok = true).
        { intros j. unfold e0, ok. destruct (md_initialized d), (md_init_throws d); cbn;
            intuition congruence. }
        assert (E0i : forall j, In (MwInit j) e0 <-> j = k /\ md_initialized d = false).
        { intros j. unfold e0, ok. destruct (md_initialized d), (md_init_throws d); cbn;
            intuition congruence. }
        assert (E0n : ~ In MwNext e0).
        { unfold e0, ok. destruct (md_initialized d), (md_init_throws d); cbn; intuition discriminate. }
        assert (Hpass : mw_passes react p k d = ok && match react p k with RNext => true | _ => false end).
        { unfold mw_passes. rewrite (proj2 (Z.eqb_eq _ _) Hm). reflexivity. }
        (* the request ends at [k] *)
        assert (Stop : mw_passes react p k d = false -> forall thrown,
                  (thrown = true <-> ok = false \/ react p k = RThrow) ->
                  exists new, events s1 = events s ++ new /\
                  (forall j, In (MwDispatch j) new <-> exists d, descs s !! j = Some d /\ k <= j /\
                     mw_reaches react p (descs s) k j /\ indexOf p (md_context d) = 0%Z /\
                     (md_initialized d || negb (md_init_throws d)) = true) /\
                  (forall j, In (MwInit j) new <-> exists d, descs s !! j = Some d /\ k <= j /\
                     mw_reaches react p (descs s) k j /\ indexOf p (md_context d) = 0%Z /\
                     md_initialized d = false) /\
                  (In MwNext new <-> forall j d, k <= j -> descs s !! j = Some d ->
                     mw_passes react p j d = true) /\
                  (thrown = true <-> exists j d, descs s !! j = Some d /\ k <= j /\
                     mw_reaches react p (descs s) k j /\ indexOf p (md_context d) = 0%Z /\
                     ((md_initialized d || negb (md_init_throws d)) = false \/ react p j = RThrow))).
        { intros Hp thrown Ht. exists e0. split; [exact L4|]. split; [|split; [|split]].
          - intros j. rewrite E0d. split.
            + intros [-> Hok]. exists d. repeat split; auto using reach_refl.
            + intros (d' & Hd' & Hj & Hr & _ & Hok).
              pose proof (reach_stop react p (descs s) k j d Hk Hp Hj Hr) as ->.
              rewrite Hk in Hd'. injection Hd' as <-. auto.
          - intros j. rewrite E0i. split.
            + intros [-> Hi]. exists d. repeat split; auto using reach_refl.
            + intros (d' & Hd' & Hj & Hr & _ & Hi).
              pose proof (reach_stop react p (descs s) k j d Hk Hp Hj Hr) as ->.
              rewrite Hk in Hd'. injection Hd' as <-. auto.
          - split; [intros H; contradiction|]. intros H. rewrite (H k d) in Hp by (lia || exact Hk).
            discriminate.
          - rewrite Ht. split.
            + intros Hx. exists k, d. repeat split; auto using reach_refl.
            + intros (j & d' & Hd' & Hj & Hr & _ & Hx).
              pose proof (reach_stop react p (descs s) k j d Hk Hp Hj Hr) as ->.
              rewrite Hk in Hd'. injection Hd' as <-. exact Hx. }
        destruct ok eqn:Hok; cbn [negb] in T1; subst thrown1.
        * destruct (react p k) eqn:Hr.
          -- (* the dispatch calls its continuation *)
             assert (Hp : mw_passes react p k d = true) by (rewrite Hpass, ?Hr; reflexivity).
             pose proof (IH (S k) s1 ltac:(lia)) as HI.
             destruct (processNextModule react p fuel (S k) s1) as [s' thrown].
             destruct HI as (new & N1 & N2 & N3 & N4 & N5).
             assert (RC : forall j, S k <= j ->
                       (mw_reaches react p (descs s) k j <-> mw_reaches react p (descs s1) (S k) j))
               by (intros j Hj; exact (reach_cont react p (descs s) (descs s1) k j d Hk Hp L2 Hj)).
             exists (e0 ++ new). split; [rewrite N1, L4, app_assoc; reflexivity|].
             split; [|split; [|split]].
             ++ intros j. rewrite in_app_iff, E0d, N2. split.
                ** intros [[-> _]|(d' & Hd' & Hj & Hr' & Hm' & Ho')].
                   --- exists d. repeat split; auto using reach_refl.
                   --- rewrite L2 in Hd' by lia. exists d'. repeat split; auto; [lia|].
                       apply RC; [lia|exact Hr'].
                ** intros (d' & Hd' & Hj & Hr' & Hm' & Ho').
                   destruct (Nat.eq_dec j k) as [->|Hne]; [left; auto|right].
                   exists d'. rewrite L2 by exact Hne. repeat split; auto; [lia|].
                   apply RC; [lia|exact Hr'].
             ++ intros j. rewrite in_app_iff, E0i, N3. split.
                ** intros [[-> Hi]|(d' & Hd' & Hj & Hr' & Hm' & Hi')].
                   --- exists d. repeat split; auto using reach_refl.
                   --- rewrite L2 in Hd' by lia. exists d'. repeat split; auto; [lia|].
                       apply RC; [lia|exact Hr'].
                ** intros (d' & Hd' & Hj & Hr' & Hm' & Hi').
                   destruct (Nat.eq_dec j k) as [->|Hne].
                   --- left. rewrite Hk in Hd'. injection Hd' as <-. auto.
                   --- right. exists d'. rewrite L2 by exact Hne. repeat split; auto; [lia|].
                       apply RC; [lia|exact Hr'].
             ++ rewrite in_app_iff, N4. split.
                ** intros [H|H]; [contradiction|].
                   intros j d' Hj Hd'. destruct (Nat.eq_dec j k) as [->|Hne].
                   --- rewrite Hk in Hd'. injection Hd' as <-. exact Hp.
                   --- apply (H j d'); [lia|]. rewrite L2 by exact Hne. exact Hd'.
                ** intros H. right. intros j d' Hj Hd'. rewrite L2 in Hd' by lia.
                   apply (H j d'); [lia|exact Hd'].
             ++ rewrite N5. split.
                ** intros (j & d' & Hd' & Hj & Hr' & Hm' & Hx).
                   rewrite L2 in Hd' by lia. exists j, d'. repeat split; auto; [lia|].
                   apply RC; [lia|exact Hr'].
                ** intros (j & d' & Hd' & Hj & Hr' & Hm' & Hx).
                   destruct (Nat.eq_dec j k) as [->|Hne].
                   --- exfalso. rewrite Hk in Hd'. injection Hd' as <-.
                       fold ok in Hx. rewrite Hok, Hr in Hx. destruct Hx as [Hx|Hx]; discriminate.
                   --- exists j, d'. rewrite L2 by exact Hne. repeat split; auto; [lia|].
                       apply RC; [lia|exact Hr'].
          -- apply Stop; [rewrite Hpass; reflexivity|]. split; [discriminate|intros [H|H]; discriminate].
          -- apply Stop; [rewrite Hpass; reflexivity|]. split; [intros _; right; reflexivity|reflexivity].
        * apply Stop; [rewrite Hpass; reflexivity|]. split; [intros _; left; reflexivity|reflexivity].
      + (* module whose context path does not match *)
        assert (Hp : mw_passes react p k d = true).
        { unfold mw_passes. destruct (Z.eqb_spec (indexOf p (md_context d)) 0); [contradiction|reflexivity]. }
        pose proof (IH (S k) s ltac:(lia)) as HI.
        destruct (processNextModule react p fuel (S k) s) as [s' thrown].
        destruct HI as (new & N1 & N2 & N3 & N4 & N5).
        assert (RC : forall j, S k <= j ->
                  (mw_reaches react p (descs s) k j <-> mw_reaches react p (descs s) (S k) j))
          by (intros j Hj; exact (reach_cont react p (descs s) (descs s) k j d Hk Hp (fun _ _ => eq_refl) Hj)).
        assert (Nk : forall j d', descs s !! j = Some d' -> indexOf p (md_context d') = 0%Z -> j <> k)
          by (intros j d' Hd' Hm' ->; rewrite Hk in Hd'; injection Hd' as <-; contradiction).
        exists new. split; [exact N1|]. split; [|split; [|split]].
        * intros j. rewrite N2. split.
          -- intros (d' & Hd' & Hj & Hr' & Hm' & Ho'). exists d'. repeat split; auto; [lia|].
             apply RC; [lia|exact Hr'].
          -- intros (d' & Hd' & Hj & Hr' & Hm' & Ho'). pose proof (Nk j d' Hd' Hm').
             exists d'. repeat split; auto; [lia|]. apply RC; [lia|exact Hr'].
        * intros j. rewrite N3. split.
          -- intros (d' & Hd' & Hj & Hr' & Hm' & Ho'). exists d'. repeat split; auto; [lia|].
             apply RC; [lia|exact Hr'].
          -- intros (d' & Hd' & Hj & Hr' & Hm' & Ho'). pose proof (Nk j d' Hd' Hm').
             exists d'. repeat split; auto; [lia|]. apply RC; [lia|exact Hr'].
        * rewrite N4. split.
          -- intros H j d' Hj Hd'. destruct (Nat.eq_dec j k) as [->|Hne].
             ++ rewrite Hk in Hd'. injection Hd' as <-. exact Hp.
             ++ apply (H j d'); [lia|exact Hd'].
          -- intros H j d' Hj. apply H. lia.
        * rewrite N5. split.
          -- intros (j & d' & Hd' & Hj & Hr' & Hm' & Hx). exists j, d'.
             repeat split; auto; [lia|]. apply RC; [lia|exact Hr'].
          -- intros (j & d' & Hd' & Hj & Hr' & Hm' & Hx). pose proof (Nk j d' Hd' Hm').
             exists j, d'. repeat split; auto; [lia|]. apply RC; [lia|exact Hr'].
  Qed.


Lemma ws_imap_shift (k : nat) (ds : list mdesc) :
    imap ((fun j d => ws_events (k + j) d) ∘ S) ds = imap (fun j d => ws_events (S k + j) d) ds.
  Proof. apply imap_ext. intros i x _. cbn. rewrite Nat.add_succ_r. reflexivity. Qed.

  (** The [forEach] of [handleRequest] over the positions of [ds], the
      descriptions after [pre]: it goes past every module, or it ends at
      the first one it does not go past, with an exception. *)
Lemma ws_loop_spec dt (ds : list mdesc) : forall (pre : list mdesc) (s : st),
    descs s = pre ++ ds ->
    ((forall j d, ds !! j = Some d -> ws_passes dt (length pre + j) d = true) ->
     ws_loop dt (seq (length pre) (length ds)) s =
       (mkSt (pre ++ map set_initialized ds)
             (events s ++ concat (imap (fun j d => ws_events (length pre + j) d) ds)), false)) /\
    (forall j d, ds !! j = Some d -> ws_passes dt (length pre + j) d = false ->
     (forall i di, i < j -> ds !! i = Some di -> ws_passes dt (length pre + i) di = true) ->
     ws_loop dt (seq (length pre) (length ds)) s =
       (mkSt (pre ++ map set_initialized (take j ds) ++
              (if md_initialized d || md_init_throws d then d else set_initialized d) :: drop (S j) ds)
             (events s ++ concat (imap (fun i d => ws_events (length pre + i) d) (take j ds)) ++
              (if md_initialized d then [] else [MwInit (length pre + j)]) ++
              (if md_initialized d || negb (md_init_throws d) then [MwDispatch (length pre + j)] else [])),
        true)).
  Proof.
    induction ds as [|d0 ds IH]; intros pre s Hs.
    - split.
      + intros _. cbn. rewrite !List.app_nil_r. rewrite List.app_nil_r in Hs.
        destruct s as [ds0 evs0]. cbn in Hs |- *. rewrite Hs. reflexivity.
      + intros j d Hd. rewrite lookup_nil in Hd. discriminate.
    - set (k := length pre).
      assert (Hk : descs s !! k = Some d0).
      { rewrite Hs, lookup_app_r by lia. unfold k. rewrite Nat.sub_diag. reflexivity. }
      assert (Hpre : length (pre ++ [set_initialized d0]) = S k)
        by (rewrite length_app; cbn; unfold k; lia).
      assert (Cont : ws_passes dt k d0 = true ->
                ws_loop dt (seq k (length (d0 :: ds))) s =
                ws_loop dt (seq (S k) (length ds))
                  (mkSt ((pre ++ [set_initialized d0]) ++ ds) (events s ++ ws_events k d0))).
      { intros Hp. cbn [length seq ws_loop]. unfold init_and_dispatch. rewrite Hk.
        unfold ws_passes in Hp. unfold ws_events.
        destruct d0 as [c t [|]]; cbn [md_initialized md_init_throws md_context orb negb] in Hp |- *;
          [|destruct t; cbn [orb negb andb] in Hp |- *; [discriminate|]];
          destruct (dt k); try discriminate; cbn [orb].
        - rewrite <- app_assoc, Hs. reflexivity.
        - cbn [descs events]. rewrite Hs, insert_app_r_alt by lia. unfold k. rewrite Nat.sub_diag.
          cbn. rewrite <- !app_assoc. reflexivity. }
      assert (Fail : ws_passes dt k d0 = false ->
                ws_loop dt (seq k (length (d0 :: ds))) s =
                (mkSt (pre ++ (if md_initialized d0 || md_init_throws d0 then d0 else set_initialized d0) :: ds)
                      (events s ++ (if md_initialized d0 then [] else [MwInit k]) ++
                       (if md_initialized d0 || negb (md_init_throws d0) then [MwDispatch k] else [])),
                 true)).
      { intros Hp. cbn [length seq ws_loop]. unfold init_and_dispatch. rewrite Hk.
        unfold ws_passes in Hp.
        destruct d0 as [c t [|]]; cbn [md_initialized md_init_throws md_context orb negb] in Hp |- *;
          [|destruct t; cbn [orb negb andb] in Hp |- *];
          [destruct (dt k); [|discriminate] | | destruct (dt k); [|discriminate]]; cbn [orb].
        - rewrite <- Hs. reflexivity.
        - rewrite <- Hs, List.app_nil_r. reflexivity.
        - cbn [descs events]. rewrite Hs, insert_app_r_alt by lia. unfold k. rewrite Nat.sub_diag.
          cbn. rewrite <- !app_assoc. reflexivity. }
      assert (Hs1 : descs (mkSt ((pre ++ [set_initialized d0]) ++ ds) (events s ++ ws_events k d0)) =
                    (pre ++ [set_initialized d0]) ++ ds) by reflexivity.
      destruct (IH (pre ++ [set_initialized d0]) _ Hs1) as [IH1 IH2].
      rewrite Hpre in IH1, IH2. cbn [events] in IH1, IH2.
      split.
      + intros Hall. rewrite Cont by (rewrite <- (Nat.add_0_r k); apply (Hall 0 d0); reflexivity).
        rewrite IH1.
        * rewrite imap_cons, ws_imap_shift. cbn [concat map]. rewrite Nat.add_0_r.
          rewrite <- !app_assoc. reflexivity.
        * intros j d Hd. replace (S k + j) with (k + S j) by lia. apply (Hall (S j) d Hd).
      + intros j d Hd Hp Hbefore. destruct j as [|j].
        * cbn in Hd. injection Hd as <-. rewrite Nat.add_0_r in Hp |- *.
          rewrite Fail by exact Hp. cbn [take drop map imap concat]. rewrite List.app_nil_l.
          reflexivity.
        * rewrite Cont by (rewrite <- (Nat.add_0_r k); apply (Hbefore 0 d0); [lia|reflexivity]).
          rewrite (IH2 j d Hd).
          -- cbn [take map]. rewrite imap_cons, ws_imap_shift. cbn [concat].
             rewrite Nat.add_0_r. replace (S k + j) with (k + S j) by lia.
             rewrite <- !app_assoc. reflexivity.
          -- replace (S k + j) with (k + S j) by lia. exact Hp.
          -- intros i di Hi Hdi. replace (S k + i) with (k + S i) by lia.
             apply (Hbefore (S i) di); [lia|exact Hdi].
  Qed.

  (** X13. A request to the socket.io middleware dispatches the registered
      modules in registration order, whatever their context path,
      initializing first each one not yet initialized.  When no [init()]
      or dispatch throws, every module is dispatched, all are marked
      initialized and the original [handleRequest] is called.  Otherwise the
      first module whose [init()] or dispatch throws ends the request with
      the exception: later modules are neither initialized nor dispatched,
      the flag of that module is set only when its [init()] returned, and
      the original [handleRequest] is not called. *)
Theorem ws_request_dispatches_all (dispatch_throws : nat -> bool) (s : st) :
    ((forall j d, descs s !! j = Some d -> ws_passes dispatch_throws j d = true) ->
     ws_request dispatch_throws s =
       (mkSt (map set_initialized (descs s))
             (events s ++ concat (imap ws_events (descs s)) ++ [MwOriginal]), false)) /\
    (forall j d, descs s !! j = Some d -> ws_passes dispatch_throws j d = false ->
     (forall i di, i < j -> descs s !! i = Some di -> ws_passes dispatch_throws i di = true) ->
     ws_request dispatch_throws s =
       (mkSt (map set_initialized (take j (descs s)) ++
              (if md_initialized d || md_init_throws d then d else set_initialized d) ::
              drop (S j) (descs s))
             (events s ++ concat (imap ws_events (take j (descs s))) ++
              (if md_initialized d then [] else [MwInit j]) ++
              (if md_initialized d || negb (md_init_throws d) then [MwDispatch j] else [])),
        true)).
  Proof.
    destruct (ws_loop_spec dispatch_throws (descs s) [] s eq_refl) as [W1 W2].
    cbn [length app] in W1, W2. unfold ws_request. split.
    - intros Hall. rewrite W1 by exact Hall. cbn [descs events].
      rewrite <- app_assoc. reflexivity.
    - intros j d Hd Hp Hb. rewrite (W2 j d Hd Hp Hb). reflexivity.
  Qed.
End MiddlewareFacts.


Module FiltersV3Facts.
  Import Dispatch Filters FiltersFacts FiltersV3.

Lemma register_all_v3_eq regs :
    register_all_v3 regs =
      register_all (map (fun r => (r.1, Some (match r.2 with Some o => o | None => 0 end))) regs).
  Proof.
    unfold register_all_v3, register_all. generalize (@nil (option (list filter))).
    induction regs as [|r regs IH]; intros fs; [reflexivity|]. cbn [foldl map].
    rewrite IH. reflexivity.
  Qed.

  (** The ordering argument of C10, for any two registrations with
      explicit orders. *)
Lemma explicit_order_in_flatten (regs : list (filter * option nat))
    (i j : nat) (f g : filter) (a b : nat) :
    regs !! i = Some (f, Some a) -> regs !! j = Some (g, Some b) ->
    a < b \/ (a = b /\ i < j) ->
    exists l1 l2 l3, flatten (register_all regs) = l1 ++ f :: l2 ++ g :: l3.
  Proof.
    intros Hi Hj Hord. destruct Hord as [Hlt|[<- Hlt]].
    - destruct (registered_in_bucket _ _ _ _ Hi) as (X1 & Y1 & H1).
      destruct (registered_in_bucket _ _ _ _ Hj) as (X2 & Y2 & H2).
      destruct (flatten_split _ _ _ _ _ Hlt H1 H2) as (P & Q & R & ->).
      exists (P ++ X1), (Y1 ++ Q ++ X2), (Y2 ++ R).
      rewrite <- ?app_assoc. cbn [app]. rewrite <- ?app_assoc. reflexivity.
    - rewrite (register_all_split _ _ _ Hj). cbn [fst snd].
      assert (Hi' : take j regs !! i = Some (f, Some a))
        by (rewrite lookup_take, decide_True by lia; exact Hi).
      destruct (registered_in_bucket _ _ _ _ Hi') as (X & Y & HX).
      unfold register_all in HX.
      destruct (add_filter_appends (foldl step_reg [] (take j regs)) g (Some a))
        as (l & Hl & Hl0).
      rewrite (Hl0 _ HX) in Hl.
      destruct (foldl_mono (drop (S j) regs) _ _ _ Hl) as (e & He).
      destruct (flatten_in _ _ _ He) as (P & R & ->).
      exists (P ++ X), Y, (e ++ R).
      rewrite <- ?app_assoc. cbn [app]. rewrite <- ?app_assoc. reflexivity.
  Qed.

Theorem filter_v3_order (regs : list (filter * option nat)) (i j : nat) (f g : filter)
    (o1 o2 : option nat) :
    regs !! i = Some (f, o1) -> regs !! j = Some (g, o2) ->
    let a := match o1 with Some o => o | None => 0 end in
    let b := match o2 with Some o => o | None => 0 end in
    a < b \/ (a = b /\ i < j) ->
    exists l1 l2 l3, flatten (register_all_v3 regs) = l1 ++ f :: l2 ++ g :: l3.
  Proof.
    intros Hi Hj a b Hord. rewrite register_all_v3_eq.
    apply (explicit_order_in_flatten _ i j f g a b); [| |exact Hord].
    - rewrite list_lookup_fmap, Hi. reflexivity.
    - rewrite list_lookup_fmap, Hj. reflexivity.
  Qed.

Lemma filter_v3_order_witness :
    [(mkFilter 1 [ANext], Some 1); (mkFilter 2 [ANext], None); (mkFilter 3 [ANext], None)] !! 1 =
      Some (mkFilter 2 [ANext], None) /\
    [(mkFilter 1 [ANext], Some 1); (mkFilter 2 [ANext], None); (mkFilter 3 [ANext], None)] !! 0 =
      Some (mkFilter 1 [ANext], Some 1) /\
    (0 < 1 \/ (0 = 1 /\ 1 < 0)) /\
    exists l1 l2 l3,
      flatten (register_all_v3
        [(mkFilter 1 [ANext], Some 1); (mkFilter 2 [ANext], None); (mkFilter 3 [ANext], None)]) =
      l1 ++ mkFilter 2 [ANext] :: l2 ++ mkFilter 1 [ANext] :: l3.
  Proof.
    assert (H1 : [(mkFilter 1 [ANext], Some 1); (mkFilter 2 [ANext], None);
                  (mkFilter 3 [ANext], None)] !! 1 = Some (mkFilter 2 [ANext], None))
      by reflexivity.
    assert (H2 : [(mkFilter 1 [ANext], Some 1); (mkFilter 2 [ANext], None);
                  (mkFilter 3 [ANext], None)] !! 0 = Some (mkFilter 1 [ANext], Some 1))
      by reflexivity.
    assert (H3 : 0 < 1 \/ (0 = 1 /\ 1 < 0)) by lia.
    split; [exact H1|]. split; [exact H2|]. split; [exact H3|].
    exact (filter_v3_order _ 1 0 _ _ None (Some 1) H1 H2 H3).
  Defined.

End FiltersV3Facts.
